(** * tolentinox: presence registry, realtime relay, retention store

    A shallow embedding of the chat core of the repository:

    - the Socket.IO relay of [SETUP.md] (the [connectedUsers] map and the
      five [socket.on] handlers),
    - the [messages] table of the database schema with its row-level
      security policies, its age-expiry trigger and the sibling cleanup
      functions,
    - the [loadMessages] and [handleSendMessage] functions of the chat room
      page.

    JavaScript strings that the code inspects (the draft and the message
    body) are sequences of UTF-16 code units; identifiers and names, which
    the code only compares and copies, are [string]s.  The payload of
    [user:join], which the relay stores, reads properties of and tests
    for truthiness, is a JavaScript value, its numbers being IEEE 754
    doubles.  Timestamps are integers (microseconds since the epoch, the
    resolution of [TIMESTAMPTZ]). *)

From Stdlib Require SpecFloat.
From stdpp Require Import base list strings sorting pretty.

(** ** JavaScript strings and [String.prototype.trim] *)

Module JsString.

Definition t := list N.

(** ECMAScript [WhiteSpace] and [LineTerminator] code points, the ones
      [trim] strips: TAB, LF, VT, FF, CR, SP, NBSP, the [Zs] category,
      LS, PS and the BOM. *)
Definition is_white_space (c : N) : bool :=
    (bool_decide (9 ≤ c ∧ c ≤ 13)
     || bool_decide (c = 32) || bool_decide (c = 160) || bool_decide (c = 5760)
     || bool_decide (8192 ≤ c ∧ c ≤ 8202)
     || bool_decide (c = 8232) || bool_decide (c = 8233) || bool_decide (c = 8239)
     || bool_decide (c = 8287) || bool_decide (c = 12288)
     || bool_decide (c = 65279))%N.

Fixpoint trimStart (s : t) : t :=
    match s with
    | [] => []
    | c :: s' => if is_white_space c then trimStart s' else s
    end.

Definition trimEnd (s : t) : t := reverse (trimStart (reverse s)).

Definition trim (s : t) : t := trimEnd (trimStart s).

(** A string is falsy exactly when it is empty. *)
Definition truthy (s : t) : bool :=
    match s with [] => false | _ => true end.

(** The body is "blank": every code unit is white space. *)
Definition blank (s : t) : bool := forallb is_white_space s.

End JsString.

(** A JavaScript [Map] and the own properties of an object are lists of
    entries in insertion order.  [set] overwrites the value of an
    existing key in place and appends a new key; [delete] drops the entry
    of the key. *)
Module JsMap.
Section with_value.
Context {V : Type}.

Definition t := list (string * V).

Definition empty : t := [].

Fixpoint set (k : string) (v : V) (m : t) : t :=
      match m with
      | [] => [(k, v)]
      | (k', v') :: m' =>
          if bool_decide (k' = k) then (k, v) :: m' else (k', v') :: set k v m'
      end.

Fixpoint get (k : string) (m : t) : option V :=
      match m with
      | [] => None
      | (k', v') :: m' => if bool_decide (k' = k) then Some v' else get k m'
      end.

Fixpoint delete (k : string) (m : t) : t :=
      match m with
      | [] => []
      | (k', v') :: m' =>
          if bool_decide (k' = k) then m' else (k', v') :: delete k m'
      end.

Definition keys (m : t) : list string := fst <$> m.

(** [Array.from(m.values())] *)
Definition values (m : t) : list V := snd <$> m.

End with_value.
Arguments t : clear implicits.
End JsMap.

(** ** JavaScript values

    What a Socket.IO packet carries and what a handler reads from it.
    The type annotations of the handlers are erased at run time, so the
    payload of [user:join] is whatever value the client sent.  A number
    is an IEEE 754 double, in the representation of the Standard
    Library's [SpecFloat]. *)
Module Js.

#[warnings="-register-all"]
Inductive value :=
| undefined
| null
| boolean (b : bool)
| number (x : SpecFloat.spec_float)
| text (s : string)
| array (items : list value)
| object (props : list (string * value)).

(** [ToBoolean]: [undefined], [null], [false], [+0], [-0], [NaN] and the
    empty string are falsy; every other value, and so every array and
    every object, is truthy. *)
Definition truthy (v : value) : bool :=
  match v with
  | undefined | null => false
  | boolean b => b
  | number (SpecFloat.S754_zero _ | SpecFloat.S754_nan) => false
  | number _ => true
  | text s => negb (bool_decide (s = ""))
  | array _ | object _ => true
  end.

Definition nullish (v : value) : bool :=
  match v with undefined | null => true | _ => false end.

(** [v.key] for a [key] that no prototype defines, as [userId],
    [userName] and [userAvatar] are: the own property of an object,
    [undefined] where the object has none and on every boolean, number,
    string and array.  Reading a property of [undefined] or [null]
    throws a [TypeError]: that is [None]. *)
Definition prop (key : string) (v : value) : option value :=
  match v with
  | undefined | null => None
  | object props => Some (default undefined (JsMap.get key props))
  | _ => Some undefined
  end.

(** The number [+0]. *)
Definition zero : value := number (SpecFloat.S754_zero false).

End Js.

(** The three properties the relay reads from a payload that is neither
    [undefined] nor [null]. *)
Definition userId (v : Js.value) : Js.value := default Js.undefined (Js.prop "userId" v).
Definition userName (v : Js.value) : Js.value := default Js.undefined (Js.prop "userName" v).
Definition userAvatar (v : Js.value) : Js.value :=
  default Js.undefined (Js.prop "userAvatar" v).

(** The object the chat room page sends with [user:join]:
    [{ userId: user.id, userName: user.name, userAvatar:
    user.profile_picture_url }], the last property being left out of the
    packet when it is [undefined]. *)
Definition UserSocket (userId userName : string) (userAvatar : option string)
  : Js.value :=
  Js.object ([("userId", Js.text userId); ("userName", Js.text userName)]
             ++ match userAvatar with
                | Some url => [("userAvatar", Js.text url)]
                | None => []
                end).

(** ** The presence registry: [connectedUsers = new Map<string, UserSocket>()] *)

Abbreviation registry := (JsMap.t Js.value).

(** The registry operations as the relay performs them: [register] is the
    [connectedUsers.set(socket.id, userData)] of the join handler, [get]
    the [connectedUsers.get(socket.id)] of the disconnect handler,
    [unregister] its look-up-then-delete, where [if (user)] tests the
    stored payload for truthiness, and [onlineUsers] the
    [Array.from(connectedUsers.values())] of the join reply (the
    specification's [list()]). *)
Module Registry.

Definition register (id : string) (u : Js.value) (r : registry) : registry :=
    JsMap.set id u r.

Definition lookup (id : string) (r : registry) : option Js.value :=
    JsMap.get id r.

(** [Map.prototype.get] returns [undefined] for a key without an entry. *)
Definition get (id : string) (r : registry) : Js.value :=
    default Js.undefined (JsMap.get id r).

Definition unregister (id : string) (r : registry) : registry :=
    if Js.truthy (get id r) then JsMap.delete id r else r.

Definition onlineUsers (r : registry) : list Js.value := JsMap.values r.

End Registry.

(** ** The realtime relay: the [io.on('connection', ...)] handlers *)

(** Payload of [message:send], as the handler annotates it. *)
Record ChatPayload := mkChatPayload {
  msg_id : string;
  msg_userId : string;
  msg_userName : string;
  msg_userAvatar : option string;
  msg_content : JsString.t;
  msg_timestamp : string;
}.

(** Payloads of [typing:start] and [typing:stop]. *)
Record TypingData := mkTypingData { typing_userId : string; typing_userName : string }.
Record StopTypingData := mkStopTypingData { stopped_userId : string }.

(** Events the server emits. *)
Inductive server_event :=
| user_joined (uid uname avatar : Js.value) (socketId : string)
| users_online (onlineUsers : list Js.value)
| message_received (message : ChatPayload)
| user_typing (data : TypingData)
| user_stopped_typing (data : StopTypingData)
| user_left (uid uname : Js.value) (socketId : string).

(** Events a client sends, plus the two transport events. *)
Inductive client_event :=
| connection
| user_join (userData : Js.value)
| message_send (message : ChatPayload)
| typing_start (data : TypingData)
| typing_stop (data : StopTypingData)
| disconnect.

(** The three ways a handler addresses an emit: [io.emit] (every connected
    socket), [socket.broadcast.emit] (every connected socket but this
    one), [socket.emit] (this socket). *)
Inductive target :=
| io_all
| socket_broadcast (socketId : string)
| socket_only (socketId : string).

(** What a handler does, in program order. *)
Inductive effect :=
| MapSet (socketId : string) (u : Js.value)
| MapDelete (socketId : string)
| Emit (to : target) (e : server_event).

(** How a handler ends: it returns, or an exception leaves it. *)
Inductive completion (A : Type) :=
| normal (a : A)
| abrupt.
Arguments normal {A} a.
Arguments abrupt {A}.

(** Handlers run against the module-level [connectedUsers] and log their
    effects; after an exception nothing more of the handler runs. *)
Definition Handler (A : Type) : Type :=
  registry → completion A * registry * list effect.

#[global] Instance handler_ret : MRet Handler := λ A a r, (normal a, r, []).

#[global] Instance handler_bind : MBind Handler := λ A B k m r,
  let '(c, r1, l1) := m r in
  match c with
  | normal a => let '(b, r2, l2) := k a r1 in (b, r2, l1 ++ l2)
  | abrupt => (abrupt, r1, l1)
  end.

Definition connectedUsers_set (id : string) (u : Js.value) : Handler unit :=
  λ r, (normal tt, Registry.register id u r, [MapSet id u]).

Definition connectedUsers_get (id : string) : Handler Js.value :=
  λ r, (normal (Registry.get id r), r, []).

Definition connectedUsers_delete (id : string) : Handler unit :=
  λ r, (normal tt, JsMap.delete id r, [MapDelete id]).

Definition connectedUsers_values : Handler (list Js.value) :=
  λ r, (normal (Registry.onlineUsers r), r, []).

Definition emit (to : target) (e : server_event) : Handler unit :=
  λ r, (normal tt, r, [Emit to e]).

(** The property read [v.key]. *)
Definition read (key : string) (v : Js.value) : Handler Js.value :=
  λ r, match Js.prop key v with
       | Some x => (normal x, r, [])
       | None => (abrupt, r, [])
       end.

(** [socket.on('user:join', ...)] *)
Definition on_user_join (socket_id : string) (userData : Js.value) : Handler unit :=
  connectedUsers_set socket_id userData ;;
  uid ← read "userId" userData;
  uname ← read "userName" userData;
  avatar ← read "userAvatar" userData;
  emit io_all (user_joined uid uname avatar socket_id) ;;
  onlineUsers ← connectedUsers_values;
  emit (socket_only socket_id) (users_online onlineUsers).

(** [socket.on('message:send', ...)] *)
Definition on_message_send (socket_id : string) (message : ChatPayload) : Handler unit :=
  emit io_all (message_received message).

(** [socket.on('typing:start', ...)] *)
Definition on_typing_start (socket_id : string) (data : TypingData) : Handler unit :=
  emit (socket_broadcast socket_id) (user_typing data).

(** [socket.on('typing:stop', ...)] *)
Definition on_typing_stop (socket_id : string) (data : StopTypingData) : Handler unit :=
  emit (socket_broadcast socket_id) (user_stopped_typing data).

(** [socket.on('disconnect', ...)]: [if (user)] is the truthiness of what
    [connectedUsers.get(socket.id)] returned, so it fails for a socket
    without an entry and for one whose stored payload is falsy. *)
Definition on_disconnect (socket_id : string) : Handler unit :=
  user ← connectedUsers_get socket_id;
  if Js.truthy user then
    connectedUsers_delete socket_id ;;
    uid ← read "userId" user;
    uname ← read "userName" user;
    emit io_all (user_left uid uname socket_id)
  else mret tt.

(** The relay: the sockets currently connected to the namespace, in
    connection order, and the registry. *)
Record Relay := mkRelay {
  connections : list string;
  connectedUsers : registry;
}.

Definition initial : Relay := mkRelay [] JsMap.empty.

(** One event delivered to one socket. *)
Definition delivery : Type := string * server_event.

Definition recipients (conns : list string) (to : target) : list string :=
  match to with
  | io_all => conns
  | socket_broadcast id => filter (λ c, c ≠ id) conns
  | socket_only id => [id]
  end.

Definition deliver (conns : list string) (eff : effect) : list delivery :=
  match eff with
  | Emit to e => (λ c, (c, e)) <$> recipients conns to
  | _ => []
  end.

Definition deliveries (conns : list string) (log : list effect) : list delivery :=
  log ≫= deliver conns.

(** What a handler did stays done when an exception leaves it.  The
    source installs no handler for uncaught exceptions, so by default the
    Node process ends there; the relay of the model goes on from the
    registry the handler left, with the events it had emitted by then,
    which covers a process that is kept alive as well. *)
Definition run_handler (conns : list string) (h : Handler unit) (r : registry)
  : Relay * list delivery :=
  let '(_, r', log) := h r in (mkRelay conns r', deliveries conns log).

(** One step of the relay.  A new socket gets a fresh id; handlers exist
    only on connected sockets; Socket.IO removes a socket from the
    namespace before its [disconnect] handler runs. *)
Definition step (s : Relay) (socket_id : string) (ev : client_event)
  : Relay * list delivery :=
  if bool_decide (socket_id ∈ connections s) then
    match ev with
    | connection => (s, [])
    | user_join userData =>
        run_handler (connections s) (on_user_join socket_id userData) (connectedUsers s)
    | message_send message =>
        run_handler (connections s) (on_message_send socket_id message) (connectedUsers s)
    | typing_start data =>
        run_handler (connections s) (on_typing_start socket_id data) (connectedUsers s)
    | typing_stop data =>
        run_handler (connections s) (on_typing_stop socket_id data) (connectedUsers s)
    | disconnect =>
        run_handler (filter (λ c, c ≠ socket_id) (connections s))
                    (on_disconnect socket_id) (connectedUsers s)
    end
  else
    match ev with
    | connection => (mkRelay (connections s ++ [socket_id]) (connectedUsers s), [])
    | _ => (s, [])
    end.

(** States the relay can be in: reached from [initial] by steps. *)
Inductive reachable : Relay → Prop :=
| reachable_initial : reachable initial
| reachable_step s id ev : reachable s → reachable (step s id ev).1.



(** Events a given socket received, in order. *)
Definition received_by (c : string) (ds : list delivery) : list server_event :=
  snd <$> filter (λ d, d.1 = c) ds.


(** ** The [messages] table and its policies (database schema) *)

Module Row.

(** A row of [messages]: the columns of [CREATE TABLE messages]. *)
Record t := mk {
  id : string;
  user_id : string;
  user_name : string;
  user_avatar : option string;
  content : JsString.t;
  created_at : Z;
}.

End Row.

Module Store.

(** Who executes a statement: the [anon] or [authenticated] API role of
    the request (with the [auth.uid()] of its token), or the owner of a
    [SECURITY DEFINER] function, for whom row-level security does not
    apply. *)
Inductive role :=
| anon
| authenticated (uid : string)
| definer.

Definition auth_uid (s : role) : option string :=
  match s with authenticated uid => Some uid | _ => None end.

Definition bypasses_rls (s : role) : bool :=
  match s with definer => true | _ => false end.

(** ["Authenticated users can view messages"]:
    [FOR SELECT USING (auth.role() = 'authenticated')] *)
Definition view_policy (s : role) (m : Row.t) : bool :=
  match s with authenticated _ => true | _ => false end.

(** ["Users can insert own messages"]:
    [FOR INSERT WITH CHECK (auth.uid() = user_id)] *)
Definition insert_policy (s : role) (m : Row.t) : bool :=
  bool_decide (auth_uid s = Some (Row.user_id m)).

(** ["Users can delete own messages"]:
    [FOR DELETE USING (auth.uid() = user_id)] *)
Definition delete_policy (s : role) (m : Row.t) : bool :=
  bool_decide (auth_uid s = Some (Row.user_id m)).

(** [ALTER TABLE messages ENABLE ROW LEVEL SECURITY]: a statement sees
    the rows its policies admit; a [DELETE] touches the rows that are
    both visible and deletable, and skips the others without an error. *)
Definition can_select (s : role) (m : Row.t) : bool :=
  bypasses_rls s || view_policy s m.

Definition can_insert (s : role) (m : Row.t) : bool :=
  bypasses_rls s || insert_policy s m.

Definition can_delete (s : role) (m : Row.t) : bool :=
  bypasses_rls s || (view_policy s m && delete_policy s m).

(** The database: the ids of the [users] table and the rows of
    [messages] in insertion order. *)
Record t := mk {
  users : list string;
  messages : list Row.t;
}.

(** [INTERVAL '3 days'] in microseconds. *)
Definition three_days : Z := 3 * 24 * 60 * 60 * 1000000.

(** [DELETE FROM messages WHERE created_at < NOW() - INTERVAL '3 days'],
    executed by [s] at time [now]. *)
Definition delete_older_than_3_days (s : role) (now : Z) (ms : list Row.t)
  : list Row.t :=
  filter (λ m, ¬ (can_delete s m ∧ (Row.created_at m < now - three_days)%Z)) ms.

(** [delete_old_messages()], declared [SECURITY DEFINER]. *)
Definition delete_old_messages (now : Z) (db : t) : t :=
  mk (users db) (delete_older_than_3_days definer now (messages db)).

(** [cleanup_messages()], declared [SECURITY DEFINER]: the same delete,
    returning the number of rows it removed. *)
Definition cleanup_messages (now : Z) (db : t) : nat * t :=
  let kept := delete_older_than_3_days definer now (messages db) in
  (length (messages db) - length kept, mk (users db) kept).

(** [auto_delete_old_messages()], the trigger function.  It is not
    declared [SECURITY DEFINER], so its [DELETE] runs as the role that
    executed the insert. *)
Definition auto_delete_old_messages (invoker : role) (now : Z) (ms : list Row.t)
  : list Row.t :=
  delete_older_than_3_days invoker now ms.

(** [INSERT INTO messages]: the insert policy, the primary key and the
    foreign key to [users] are checked; then
    [trigger_auto_delete_old_messages] fires ([AFTER INSERT ... FOR EACH
    STATEMENT]).  [None] is an error and leaves the table as it was. *)
Definition insert (s : role) (now : Z) (m : Row.t) (db : t) : option t :=
  if bool_decide (can_insert s m
                  ∧ (Row.id m ∉ Row.id <$> messages db)
                  ∧ (Row.user_id m ∈ users db))
  then Some (mk (users db) (auto_delete_old_messages s now (messages db ++ [m])))
  else None.

Definition created_le (a b : Row.t) : Prop :=
  (Row.created_at a ≤ Row.created_at b)%Z.

#[global] Instance created_le_dec : RelDecision created_le.
Proof. intros a b. unfold created_le. apply _. Defined.

(** [SELECT ... FROM messages ORDER BY created_at ASC], executed by [s]. *)
Definition select_ordered (s : role) (db : t) : list Row.t :=
  merge_sort created_le (filter (λ m, can_select s m) (messages db)).

(** [... ORDER BY created_at ASC LIMIT n] *)
Definition select_ordered_limit (s : role) (n : nat) (db : t) : list Row.t :=
  take n (select_ordered s db).

(** [DELETE FROM messages WHERE id IN (ids)], executed by [s]. *)
Definition delete_in (s : role) (ids : list string) (db : t) : t :=
  mk (users db)
     (filter (λ m, ¬ (can_delete s m ∧ Row.id m ∈ ids)) (messages db)).

(** Following the specification's words: the most recent [n] messages a
    session can read, in ascending order of creation time. *)
Definition most_recent (s : role) (n : nat) (db : t) : list Row.t :=
  let all := select_ordered s db in drop (length all - n) all.

End Store.

(** ** The chat room page: [loadMessages] and [handleSendMessage] *)

Module User.

Record t := mk {
  id : string;
  email : string;
  name : string;
  profile_picture_url : option string;
  created_at : string;
}.

End User.

Module Message.

(** The client's [Message] type.  Rows read from the table have no
    [timestamp] column. *)
Record t := mk {
  id : string;
  user_id : string;
  user_name : string;
  user_avatar : option string;
  content : JsString.t;
  timestamp : option Z;
  created_at : Z;
}.

Definition of_row (r : Row.t) : t :=
  mk (Row.id r) (Row.user_id r) (Row.user_name r) (Row.user_avatar r)
     (Row.content r) None (Row.created_at r).

(** The object literal passed to [insert]: every field but [timestamp]. *)
Definition to_row (m : t) : Row.t :=
  Row.mk (id m) (user_id m) (user_name m) (user_avatar m) (content m) (created_at m).

End Message.

Module Client.

(** The client socket: its connection flag and the [message:send]
    payloads it has emitted, oldest first. *)
Record Socket := mkSocket {
  connected : bool;
  emitted : list Message.t;
}.

(** The component state [handleSendMessage] and [loadMessages] read or
    write. *)
Record ChatRoom := mkChatRoom {
  user : option User.t;
  profile : option User.t;
  messages : list Message.t;
  newMessage : JsString.t;
  socket : option Socket;
}.

(** What one call gets from outside: the result of
    [crypto.randomUUID()], the two readings of the clock, the server's
    [NOW()] during the insert, and whether each of the three requests
    reaches the database. *)
Record Env := mkEnv {
  randomUUID : string;
  now_timestamp : Z;
  now_created_at : Z;
  server_now : Z;
  insert_reaches : bool;
  select_reaches : bool;
  delete_reaches : bool;
}.

(** [supabase.from('messages').select('*').order('created_at',
    { ascending: true }).limit(100)]; [None] is [error]. *)
Definition loadMessages_query (reaches : bool) (session : Store.role) (db : Store.t)
  : option (list Row.t) :=
  if reaches then Some (Store.select_ordered_limit session 100 db) else None.

(** [loadMessages]: [if (data && !error) setMessages(data)]. *)
Definition loadMessages (reaches : bool) (session : Store.role) (db : Store.t)
    (st : ChatRoom) : ChatRoom :=
  match loadMessages_query reaches session db with
  | Some data =>
      mkChatRoom (user st) (profile st) (Message.of_row <$> data)
                 (newMessage st) (socket st)
  | None => st
  end.

(** The retention limit written in [handleSendMessage]. *)
Definition max_messages : nat := 50.

(** The [try] block of [handleSendMessage]: read every row in ascending
    order of [created_at]; if there are more than 50, delete the first
    [length - 50] by id.  A failed read or delete is ignored. *)
Definition enforce_max_messages (env : Env) (session : Store.role) (db : Store.t)
  : Store.t :=
  if select_reaches env then
    let allMessages := Store.select_ordered session db in
    if bool_decide (max_messages < length allMessages) then
      let idsToDelete :=
        Row.id <$> take (length allMessages - max_messages) allMessages in
      if bool_decide (0 < length idsToDelete) then
        if delete_reaches env then Store.delete_in session idsToDelete db else db
      else db
    else db
  else db.

(** [supabase.from('messages').insert({...})]; [None] is [error]. *)
Definition supabase_insert (env : Env) (session : Store.role) (m : Row.t)
    (db : Store.t) : option Store.t :=
  if insert_reaches env then Store.insert session (server_now env) m db else None.

(** [if (socket?.connected) socket.emit('message:send', messageData)] *)
Definition socket_emit_if_connected (m : Message.t) (s : option Socket)
  : option Socket :=
  match s with
  | Some sock =>
      if connected sock then Some (mkSocket true (emitted sock ++ [m])) else s
  | None => None
  end.

(** The [messageData] object [handleSendMessage] builds for the signed-in
    user [u]: [effectiveProfile] is [profile ?? user]. *)
Definition messageData (env : Env) (u : User.t) (st : ChatRoom) : Message.t :=
  let effectiveProfile := default u (profile st) in
  Message.mk (randomUUID env) (User.id u) (User.name effectiveProfile)
             (User.profile_picture_url effectiveProfile)
             (JsString.trim (newMessage st))
             (Some (now_timestamp env)) (now_created_at env).

(** [handleSendMessage]: the guard [if (!newMessage.trim() || !user)
    return], the insert, and under [if (!error)] the clean-up, the emit
    and [setNewMessage('')]. *)
Definition handleSendMessage (env : Env) (session : Store.role)
    (st : ChatRoom) (db : Store.t) : ChatRoom * Store.t :=
  match user st with
  | None => (st, db)
  | Some u =>
      if negb (JsString.truthy (JsString.trim (newMessage st))) then (st, db)
      else
        match supabase_insert env session (Message.to_row (messageData env u st)) db with
        | None => (st, db)
        | Some db1 =>
            let db2 := enforce_max_messages env session db1 in
            (mkChatRoom (user st) (profile st) (messages st) []
                        (socket_emit_if_connected (messageData env u st) (socket st)),
             db2)
        end
  end.

(** The payloads [handleSendMessage] emitted on the socket. *)
Definition emitted_by (before after : ChatRoom) : list Message.t :=
  match socket after with
  | Some s => drop (length (from_option emitted [] (socket before))) (emitted s)
  | None => []
  end.

End Client.

(** ** Scenarios used as concrete instances *)

Definition ann : Js.value := UserSocket "u1" "Ann" None.

Definition hi : ChatPayload :=
  mkChatPayload "m1" "u1" "Ann" None [104; 105]%N "2024-01-01T00:00:00.000Z".

(** Three sockets [A], [B], [C] have connected, nobody has joined yet. *)
Definition three_clients : Relay :=
  (step (step (step initial "A" connection).1 "B" connection).1 "C" connection).1.

(** ... and then [A] has joined as Ann. *)
Definition ann_joined : Relay := (step three_clients "A" (user_join ann)).1.

(** ... or [A] has sent [user:join] with the number 0 as its payload. *)
Definition zero_joined : Relay :=
  (step three_clients "A" (user_join Js.zero)).1.


(** Alice is signed in, her socket is connected, and she has typed
    [draft]. *)
Definition alice : User.t := User.mk "A" "alice@example.com" "Alice" None "2024-01-01".

Definition alice_room (draft : JsString.t) : Client.ChatRoom :=
  Client.mkChatRoom (Some alice) (Some alice) [] draft
                    (Some (Client.mkSocket true [])).

(** An environment in which every request reaches the database; the
    message is created at [t] and the server clock reads [now]. *)
Definition env_at (t now : Z) : Client.Env :=
  Client.mkEnv "new" t t now true true true.

(** The same with the insert request failing. *)
Definition env_insert_fails (t now : Z) : Client.Env :=
  Client.mkEnv "new" t t now false true true.

(** Bob's [n] messages [1 .. n], the message [k] created at time [k]. *)
Definition bobs_row (k : nat) : Row.t :=
  Row.mk (pretty k) "B" "Bob" None [104; 105]%N (Z.of_nat k).

Definition bobs_table (n : nat) : Store.t :=
  Store.mk ["A"; "B"] (bobs_row <$> seq 1 n).

(** The same messages written by Alice. *)
Definition alices_row (k : nat) : Row.t :=
  Row.mk (pretty k) "A" "Alice" None [104; 105]%N (Z.of_nat k).

Definition alices_table (n : nat) : Store.t :=
  Store.mk ["A"; "B"] (alices_row <$> seq 1 n).

(** ** [renderMessageWithLinks]: the URL pattern, [split] and [test] *)

Module Links.

(** The code units of ["http://"] and ["https://"]. *)
Definition http : JsString.t := [104; 116; 116; 112; 58; 47; 47]%N.
Definition https : JsString.t := [104; 116; 116; 112; 115; 58; 47; 47]%N.

Definition starts_with (p s : JsString.t) : bool :=
  bool_decide (take (length p) s = p).

(** [https?:\/\/] at the start of [s]: the number of code units it
    takes. *)
Definition scheme (s : JsString.t) : option nat :=
  if starts_with https s then Some (length https)
  else if starts_with http s then Some (length http)
  else None.

(** The greedy [[^\s]*] at the start of [s]: how many code units it
    takes.  [\s] is the white space of [trim]. *)
Fixpoint non_space_run (s : JsString.t) : nat :=
  match s with
  | [] => 0
  | c :: s' => if JsString.is_white_space c then 0 else S (non_space_run s')
  end.

(** [https?:\/\/[^\s]+] matched at the start of [s]: the length of the
    match.  There is one way to match at most, so backtracking finds
    nothing else. *)
Definition match_at (s : JsString.t) : option nat :=
  match scheme s with
  | Some k =>
      match non_space_run (drop k s) with
      | 0 => None
      | S n => Some (k + S n)
      end
  | None => None
  end.

(** The leftmost match in [s]: where it starts and where it ends. *)
Fixpoint search (s : JsString.t) : option (nat * nat) :=
  match match_at s with
  | Some len => Some (0, len)
  | None =>
      match s with
      | [] => None
      | _ :: s' => prod_map S S <$> search s'
      end
  end.

(** [exec] of a pattern with the [g] flag: the search starts at
    [lastIndex] and fails if [lastIndex] is beyond the end. *)
Definition exec (lastIndex : nat) (s : JsString.t) : option (nat * nat) :=
  if bool_decide (lastIndex ≤ length s)
  then prod_map (Nat.add lastIndex) (Nat.add lastIndex) <$> search (drop lastIndex s)
  else None.

(** [urlRegex.test(part)]: the answer and the new [lastIndex] (the end
    of the match, or 0 after a failure). *)
Definition test (lastIndex : nat) (s : JsString.t) : bool * nat :=
  match exec lastIndex s with
  | Some (_, e) => (true, e)
  | None => (false, 0)
  end.

(** [text.split(urlRegex)]: the text before each match, then the match
    (the pattern's one capture group), and the text after the last
    match.  [split] does not read or write [lastIndex].  [cur] holds, in
    reverse, the code units passed since the last match; each step
    consumes at least one code unit, so [fuel] above the length of [s] is
    never used up. *)
Fixpoint split_go (fuel : nat) (cur : JsString.t) (s : JsString.t)
  : list JsString.t :=
  match fuel with
  | 0 => []
  | S fuel' =>
      match s with
      | [] => [reverse cur]
      | c :: s' =>
          match match_at s with
          | Some len => reverse cur :: take len s :: split_go fuel' [] (drop len s)
          | None => split_go fuel' (c :: cur) s'
          end
      end
  end.

Definition split (text : JsString.t) : list JsString.t :=
  split_go (S (length text)) [] text.

(** The two elements [renderMessageWithLinks] returns. *)
Inductive node :=
| a (key : nat) (href : JsString.t) (children : JsString.t)
| span (key : nat) (children : JsString.t).

Definition children_of (n : node) : JsString.t :=
  match n with
  | a _ _ children => children
  | span _ children => children
  end.

(** [parts.map((part, index) => urlRegex.test(part) ? <a ...> : <span
    ...>)]: the callback runs on the parts in order and the pattern keeps
    its [lastIndex] from one call to the next. *)
Fixpoint map_parts (lastIndex index : nat) (parts : list JsString.t)
  : list node :=
  match parts with
  | [] => []
  | part :: rest =>
      let '(is_url, lastIndex') := test lastIndex part in
      (if is_url then a index part part else span index part)
        :: map_parts lastIndex' (S index) rest
  end.

(** [renderMessageWithLinks]: a fresh pattern ([lastIndex] 0) for each
    call. *)
Definition renderMessageWithLinks (text : JsString.t) : list node :=
  map_parts 0 0 (split text).

End Links.

(** ** The auth provider: approval check, sign in, sign up, auth state *)

(** String operations of the auth code, on strings it only compares,
    searches and cuts. *)
Module JsText.

(** [hay.includes(needle)] *)
Fixpoint includes (needle hay : string) : bool :=
  String.prefix needle hay
  || match hay with
     | EmptyString => false
     | String _ hay' => includes needle hay'
     end.

(** The code unit of ["@"]. *)
Definition at_sign : Ascii.ascii := Ascii.ascii_of_nat 64.

(** [s.split('@')[0]]: what comes before the first ["@"]. *)
Fixpoint before_at (s : string) : string :=
  match s with
  | EmptyString => EmptyString
  | String c s' => if Ascii.eqb c at_sign then EmptyString else String c (before_at s')
  end.

(** Case folding of the letters [A] to [Z], the only folding that can
    make a code unit equal to a letter of an ASCII pattern under the [i]
    flag. *)
Definition fold_case (c : Ascii.ascii) : Ascii.ascii :=
  let n := Ascii.nat_of_ascii c in
  if (65 <=? n) && (n <=? 90) then Ascii.ascii_of_nat (n + 32) else c.

Fixpoint fold_cases (s : string) : string :=
  match s with
  | EmptyString => EmptyString
  | String c s' => String (fold_case c) (fold_cases s')
  end.

(** [x || fallback] for a string that may be missing or empty. *)
Definition or_else (x : option string) (fallback : string) : string :=
  match x with
  | Some s => if bool_decide (s = "") then fallback else s
  | None => fallback
  end.

(** The truthiness test of [x ? ... : ...] or [if (x)] on such a string. *)
Definition present (x : option string) : bool :=
  match x with
  | Some s => bool_decide (s ≠ "")
  | None => false
  end.

End JsText.

Module Auth.

(** A promise either resolves or rejects. *)
Inductive outcome (A : Type) :=
| resolves (a : A)
| rejects.
Arguments resolves {A} a.
Arguments rejects {A}.

(** What [.from('approved_emails').select('email').eq('email',
    normalized).maybeSingle()] resolves to: [error], a row, or no row. *)
Inductive lookup_result :=
| lookup_error
| lookup_row (email : string)
| lookup_none.

(** The requests the auth functions make, and their pauses. *)
Inductive call :=
| select_approved_email (normalized : string)
| auth_signInWithPassword (email password : string)
| auth_signUp (email password : string)
| auth_getUser
| sleep (ms : nat)
| upsert_user (id email name : string)
| select_user (id : string).

Definition is_getUser (c : call) : bool :=
  match c with auth_getUser => true | _ => false end.

Definition is_upsert (c : call) : bool :=
  match c with upsert_user _ _ _ => true | _ => false end.

Definition is_auth_signUp (c : call) : bool :=
  match c with auth_signUp _ _ => true | _ => false end.

Record approval := mkApproval {
  ok : bool;
  error : option string;
}.

(** How a part of [signUp] ends: it returns from [signUp] with an
    [error], it goes on with a value, or it throws into the [catch]. *)
Inductive flow (A : Type) :=
| returned (error : option string)
| goes_on (a : A)
| thrown.
Arguments returned {A} error.
Arguments goes_on {A} a.
Arguments thrown {A}.

Section with_toLowerCase.

(** [String.prototype.toLowerCase]. *)
Variable toLowerCase : string → string.

(** [verifyApprovedEmail], run against the [approvedEmailCache] of its
    closure and the current answer of the [approved_emails] table.  It
    returns the approval, the cache afterwards and the requests made. *)
Definition verifyApprovedEmail (approved_emails : string → lookup_result)
    (approvedEmailCache : JsMap.t bool) (email : string)
  : approval * JsMap.t bool * list call :=
  let normalized := toLowerCase email in
  if bool_decide (normalized = "") then
    (mkApproval false (Some "Email is required."), approvedEmailCache, [])
  else
    match JsMap.get normalized approvedEmailCache with
    | Some cached =>
        (mkApproval cached (if cached then None else Some "Email not approved."),
         approvedEmailCache, [])
    | None =>
        match approved_emails normalized with
        | lookup_error =>
            (mkApproval false
               (Some "Unable to verify email approval right now. Please try again."),
             approvedEmailCache, [select_approved_email normalized])
        | lookup_row e =>
            let ok := bool_decide (e ≠ "") in
            (mkApproval ok
               (if ok then None
                else Some "Email not approved. Contact admin to add your email."),
             JsMap.set normalized ok approvedEmailCache,
             [select_approved_email normalized])
        | lookup_none =>
            (mkApproval false
               (Some "Email not approved. Contact admin to add your email."),
             JsMap.set normalized false approvedEmailCache,
             [select_approved_email normalized])
        end
    end.

(** What [supabase.auth.signInWithPassword] resolves to or rejects
    with. *)
Inductive sign_in_response :=
| sign_in_data (has_user : bool)
| sign_in_error (message : string)
| sign_in_rejects (message : option string).

(** The message shown for an [error] of [signInWithPassword]. *)
Definition sign_in_error_message (message : string) : string :=
  if JsText.includes "Invalid login credentials" message
     || JsText.includes "Invalid" message
  then "Incorrect email or password. Please check and try again."
  else if JsText.includes "Email not confirmed" message
  then "Please confirm your email address before signing in."
  else if JsText.includes "User not found" message
  then "No account found with this email. Please sign up first."
  else JsText.or_else (Some message) "Sign in failed. Please try again.".

(** [signIn]: the [error] it returns ([None] is [null]), the cache
    afterwards and the requests made. *)
Definition signIn (approved_emails : string → lookup_result)
    (response : sign_in_response)
    (approvedEmailCache : JsMap.t bool) (email password : string)
  : option string * JsMap.t bool * list call :=
  if bool_decide (email = "") || bool_decide (password = "") then
    (Some "Please enter both email and password.", approvedEmailCache, [])
  else
    let '(approved, cache, calls) :=
      verifyApprovedEmail approved_emails approvedEmailCache email in
    if negb (ok approved) then (error approved, cache, calls)
    else
      let calls := calls ++ [auth_signInWithPassword email password] in
      match response with
      | sign_in_error message => (Some (sign_in_error_message message), cache, calls)
      | sign_in_data false =>
          (Some "Sign in failed. No user data received.", cache, calls)
      | sign_in_data true => (None, cache, calls)
      | sign_in_rejects message =>
          (Some (JsText.or_else message
                   "An unexpected error occurred. Please try again."),
           cache, calls)
      end.

(** What an upsert into [users] resolves to: no error, or an error with
    its code and message. *)
Inductive upsert_result :=
| upsert_ok
| upsert_error (code : option string) (message : option string).

(** [isFkViolation]: code [23503], or [/foreign key/i] in the message. *)
Definition isFkViolation (code message : option string) : bool :=
  bool_decide (code = Some "23503")
  || JsText.includes "foreign key" (JsText.fold_cases (JsText.or_else message "")).

(** What [signUp] gets from outside: the answer of [approved_emails];
    the result of [auth.signUp] (an error message, or the user id if
    there is one); the result of each [auth.getUser] poll; the result of
    each upsert attempt; and the id found by the final existence
    check. *)
Record SignUpEnv := mkSignUpEnv {
  approved_emails : string → lookup_result;
  signUp_response : outcome (string + option string);
  getUser_response : nat → outcome (option string);
  upsert_response : nat → outcome upsert_result;
  existing_profile : outcome (option string);
}.

(** [for (let i = 0; i < 5; i++)] over [auth.getUser()], from poll [i]
    with [n] polls left: the user id found, if any. *)
Fixpoint poll_user_id (env : SignUpEnv) (n i : nat)
  : flow (option string) * list call :=
  match n with
  | 0 => (goes_on None, [])
  | S n' =>
      match getUser_response env i with
      | rejects => (thrown, [auth_getUser])
      | resolves id =>
          if JsText.present id then (goes_on id, [auth_getUser])
          else
            let '(r, calls) := poll_user_id env n' (S i) in
            (r, auth_getUser :: sleep 300 :: calls)
      end
  end.

(** [for (let attempt = 0; attempt < maxRetries; attempt++)] over the
    upsert, from [attempt] with [n] attempts left. *)
Fixpoint upsert_profile (env : SignUpEnv) (userId email name : string)
    (n attempt : nat) : flow unit * list call :=
  match n with
  | 0 => (goes_on tt, [])
  | S n' =>
      match upsert_response env attempt with
      | rejects => (thrown, [upsert_user userId email name])
      | resolves upsert_ok => (returned None, [upsert_user userId email name])
      | resolves (upsert_error code message) =>
          if isFkViolation code message then
            let '(r, calls) := upsert_profile env userId email name n' (S attempt) in
            (r, upsert_user userId email name :: sleep (200 * (attempt + 1)) :: calls)
          else (returned message, [upsert_user userId email name])
      end
  end.

Definition maxRetries : nat := 5.

(** The [try] block of [signUp]. *)
Definition signUp_try (env : SignUpEnv) (email password name : string)
  : flow unit * list call :=
  match signUp_response env with
  | rejects => (thrown, [auth_signUp email password])
  | resolves (inl message) => (returned (Some message), [auth_signUp email password])
  | resolves (inr id) =>
      let '(polled, calls1) :=
        if JsText.present id then (goes_on id, [])
        else poll_user_id env 5 0 in
      match polled with
      | thrown => (thrown, auth_signUp email password :: calls1)
      | returned e => (returned e, auth_signUp email password :: calls1)
      | goes_on None =>
          (returned (Some "Account created. Please check your email to confirm before signing in."),
           auth_signUp email password :: calls1)
      | goes_on (Some userId) =>
          let '(upserted, calls2) :=
            upsert_profile env userId email name maxRetries 0 in
          match upserted with
          | thrown => (thrown, auth_signUp email password :: calls1 ++ calls2)
          | returned e =>
              (returned e, auth_signUp email password :: calls1 ++ calls2)
          | goes_on _ =>
              match existing_profile env with
              | rejects =>
                  (thrown,
                   auth_signUp email password :: calls1 ++ calls2 ++ [select_user userId])
              | resolves found =>
                  (returned
                     (if JsText.present found then None
                      else Some "Signup succeeded, but profile creation is delayed. Please try signing in shortly."),
                   auth_signUp email password :: calls1 ++ calls2 ++ [select_user userId])
              end
          end
      end
  end.

(** [signUp]: the [error] it returns, the cache afterwards and the
    requests made. *)
Definition signUp (env : SignUpEnv) (approvedEmailCache : JsMap.t bool)
    (email password name : string)
  : option string * JsMap.t bool * list call :=
  let '(approved, cache, calls) :=
    verifyApprovedEmail (approved_emails env) approvedEmailCache email in
  if negb (ok approved) then (error approved, cache, calls)
  else
    let '(r, calls') := signUp_try env email password name in
    (match r with
     | returned e => e
     | goes_on _ => None
     | thrown => Some "An unexpected error occurred"
     end, cache, calls ++ calls').

End with_toLowerCase.

(** *** The auth state *)

(** [session.user], as far as the provider reads it. *)
Record SessionUser := mkSessionUser {
  su_id : string;
  su_email : option string;
  su_created_at : string;
}.

Record AuthState := mkAuthState {
  user : option User.t;
  loading : bool;
  state_error : option string;
}.

(** The [baseUser] built from the session. *)
Definition baseUser (u : SessionUser) : User.t :=
  User.mk (su_id u)
          (JsText.or_else (su_email u) "")
          (JsText.or_else (JsText.before_at <$> su_email u) "User")
          None
          (su_created_at u).

Inductive auth_event :=
| SIGNED_IN
| SIGNED_OUT
| INITIAL_SESSION
| other_event.

(** The callback of [supabase.auth.onAuthStateChange], as a change of the
    state. *)
Definition onAuthStateChange (mounted : bool) (event : auth_event)
    (session : option SessionUser) (state : AuthState) : AuthState :=
  if negb mounted then state
  else
    match event, session with
    | SIGNED_IN, Some u => mkAuthState (Some (baseUser u)) false None
    | SIGNED_OUT, _ => mkAuthState None false None
    | INITIAL_SESSION, _ => state
    | _, _ => mkAuthState (user state) false (state_error state)
    end.

(** The end of the background profile fetch started on sign-in:
    [if (!mounted || !profile) return; setState(prev => ({ ...prev, user:
    {...profile} }))]. *)
Definition on_profile_fetched (mounted : bool) (profile : option User.t)
    (state : AuthState) : AuthState :=
  match profile with
  | Some p =>
      if mounted then mkAuthState (Some p) (loading state) (state_error state)
      else state
  | None => state
  end.

(** [signOut]'s first statement: [setState({ user: null, loading: false,
    error: null })]. *)
Definition signOut_state (state : AuthState) : AuthState :=
  mkAuthState None false None.

(** The safety timeout of the provider: [if (mounted) setState(prev =>
    ({ ...prev, loading: false }))]. *)
Definition on_safety_timeout (mounted : bool) (state : AuthState) : AuthState :=
  if mounted then mkAuthState (user state) false (state_error state) else state.

(** The callbacks that change the auth state after the provider has
    mounted, in the order the event loop runs them. *)
Inductive transition :=
| auth_state_changed (mounted : bool) (event : auth_event)
                     (session : option SessionUser)
| profile_fetched (mounted : bool) (profile : option User.t)
| signOut_called
| safety_timeout (mounted : bool).

Definition apply_transition (state : AuthState) (t : transition) : AuthState :=
  match t with
  | auth_state_changed mounted event session =>
      onAuthStateChange mounted event session state
  | profile_fetched mounted profile => on_profile_fetched mounted profile state
  | signOut_called => signOut_state state
  | safety_timeout mounted => on_safety_timeout mounted state
  end.

Definition run_transitions (state : AuthState) (ts : list transition) : AuthState :=
  foldl apply_transition state ts.

End Auth.

(** ** The sign-up page: [handleSubmit] *)

Module Signup.

Record File := mkFile {
  file_name : string;
  size : N;
}.

(** The state of the form that [handleSubmit] reads or writes. *)
Record Form := mkForm {
  name : JsString.t;
  email : JsString.t;
  password : JsString.t;
  confirmPassword : JsString.t;
  profilePicture : option File;
  error : string;
  loading : bool;
}.

(** What [handleSubmit] does outside the form. *)
Inductive action :=
| call_signUp (email password name : JsString.t)
| call_getSession
| call_uploadProfilePicture (file : File) (userId : string)
| navigate (path : string).

(** What [handleSubmit] gets from outside: the error [signUp] resolves
    with (or its rejection), and the user id of the session
    [getSession] resolves with. *)
Record Env := mkEnv {
  signUp_result : Auth.outcome (option string);
  session_user : Auth.outcome (option string);
}.

Definition set_error (msg : string) (f : Form) : Form :=
  mkForm (name f) (email f) (password f) (confirmPassword f)
         (profilePicture f) msg (loading f).

Definition set_loading (b : bool) (f : Form) : Form :=
  mkForm (name f) (email f) (password f) (confirmPassword f)
         (profilePicture f) (error f) b.

(** The steps of [handleSubmit] after a [signUp] without error. *)
Definition after_signUp (env : Env) (f : Form) : Form * list action :=
  match profilePicture f with
  | Some file =>
      match session_user env with
      | Auth.rejects =>
          (set_loading false (set_error "An unexpected error occurred" f),
           [call_getSession])
      | Auth.resolves (Some userId) =>
          (f, [call_getSession; call_uploadProfilePicture file userId;
               navigate "/chat"])
      | Auth.resolves None => (f, [call_getSession; navigate "/chat"])
      end
  | None => (f, [navigate "/chat"])
  end.

(** [handleSubmit]. *)
Definition handleSubmit (env : Env) (f0 : Form) : Form * list action :=
  let f := set_error "" f0 in
  if negb (JsString.truthy (JsString.trim (name f))) then
    (set_error "Please enter your name" f, [])
  else if negb (JsString.truthy (email f)) then
    (set_error "Please enter your email" f, [])
  else if negb (JsString.truthy (password f)) then
    (set_error "Please enter a password" f, [])
  else if bool_decide (length (password f) < 6) then
    (set_error "Password must be at least 6 characters" f, [])
  else if negb (JsString.truthy (confirmPassword f)) then
    (set_error "Please confirm your password" f, [])
  else if bool_decide (password f ≠ confirmPassword f) then
    (set_error "Passwords do not match" f, [])
  else
    let f := set_loading true f in
    let called := call_signUp (email f) (password f) (name f) in
    match signUp_result env with
    | Auth.rejects =>
        (set_loading false (set_error "An unexpected error occurred" f), [called])
    | Auth.resolves signUpError =>
        if JsText.present signUpError then
          (set_loading false (set_error (default "" signUpError) f), [called])
        else
          let '(f', actions) := after_signUp env f in (f', called :: actions)
    end.

End Signup.




(** A sign-up form filled in correctly, without a picture. *)
Definition valid_form : Signup.Form :=
  Signup.mkForm [65; 110; 110]%N [97; 64; 120]%N
                [49; 50; 51; 52; 53; 54]%N [49; 50; 51; 52; 53; 54]%N
                None "" false.

(** ** The provider's start-up check: [initAuth] *)

Module InitAuth.
Import Auth.

(** What [supabase.auth.getSession()] resolves to. *)
Inductive session_response :=
| session_error
| session_data (session : option SessionUser).

(** What [initAuth] gets from outside: the result of [getSession], the
    answer of [approved_emails], the result of [auth.signOut()], and
    whether the provider is still mounted when [getSession] has settled
    and when the approval check and the sign-out have settled. *)
Record Env := mkEnv {
  getSession_response : outcome session_response;
  approved_emails : string → lookup_result;
  signOut_response : outcome unit;
  mounted_after_getSession : bool;
  mounted_after_check : bool;
}.

Inductive request :=
| auth_getSession
| approved_email_check (c : call)
| auth_signOut
| fetch_profile (id : string).

Definition cleared (error : option string) : AuthState :=
  mkAuthState None false error.

(** [initAuth], without the timer it clears at the end: the state it
    leaves, the cache afterwards and the requests made (the last one,
    [fetch_profile], is the background fetch it starts). *)
Definition initAuth (toLowerCase : string → string) (env : Env)
    (approvedEmailCache : JsMap.t bool) (state : AuthState)
  : AuthState * JsMap.t bool * list request :=
  match getSession_response env with
  | rejects =>
      (if mounted_after_getSession env then cleared None else state,
       approvedEmailCache, [auth_getSession])
  | resolves session_error =>
      (if mounted_after_getSession env then cleared None else state,
       approvedEmailCache, [auth_getSession])
  | resolves (session_data session) =>
      if negb (mounted_after_getSession env) then
        (state, approvedEmailCache, [auth_getSession])
      else
        match session with
        | None => (cleared None, approvedEmailCache, [auth_getSession])
        | Some u =>
            let '(approved, cache, calls) :=
              verifyApprovedEmail toLowerCase (approved_emails env)
                                  approvedEmailCache
                                  (JsText.or_else (su_email u) "") in
            let requests := auth_getSession :: (approved_email_check <$> calls) in
            if negb (ok approved) then
              match signOut_response env with
              | rejects =>
                  (if mounted_after_check env then cleared None else state,
                   cache, requests ++ [auth_signOut])
              | resolves _ =>
                  (if mounted_after_check env then cleared (error approved)
                   else state,
                   cache, requests ++ [auth_signOut])
              end
            else
              (mkAuthState (Some (baseUser u)) false None, cache,
               requests ++ [fetch_profile (su_id u)])
        end
  end.

End InitAuth.

(** ** Profile pictures and the profile editor *)

Module Profile.
Import Auth.

(** The code unit of ["."]. *)
Definition dot : Ascii.ascii := Ascii.ascii_of_nat 46.

Fixpoint has_dot (s : string) : bool :=
  match s with
  | EmptyString => false
  | String c s' => Ascii.eqb c dot || has_dot s'
  end.

(** [name.split('.').pop()]: what comes after the last ["."], or the
    whole name when it has none. *)
Fixpoint extension (name : string) : string :=
  match name with
  | EmptyString => EmptyString
  | String c name' =>
      if has_dot name' then extension name'
      else if Ascii.eqb c dot then name'
      else name
  end.

(** [`avatars/${userId}-${Date.now()}.${fileExt}`], with [now] the
    decimal digits of [Date.now()]. *)
Definition filePath (userId now : string) (file : Signup.File) : string :=
  "avatars/" +:+ userId +:+ "-" +:+ now +:+ "." +:+ extension (Signup.file_name file).

Inductive request :=
| storage_upload (path : string) (file : Signup.File)
| update_profile_picture_url (userId url : string)
| update_name (userId name : string).

(** What [uploadProfilePicture] gets from outside: the clock, the
    [error] message of the upload, the public URL of a path, and the
    [error] message of the update of [users]. *)
Record UploadEnv := mkUploadEnv {
  now : string;
  upload_response : outcome (option string);
  publicUrl : string → string;
  update_response : outcome (option string);
}.

Record upload_result := mkUploadResult {
  url : option string;
  upload_error : option string;
}.

(** [uploadProfilePicture].  An [error] object is truthy whatever its
    message. *)
Definition uploadProfilePicture (env : UploadEnv) (file : Signup.File)
    (userId : string) : upload_result * list request :=
  let path := filePath userId (now env) file in
  match upload_response env with
  | rejects =>
      (mkUploadResult None (Some "Failed to upload profile picture"),
       [storage_upload path file])
  | resolves (Some message) =>
      (mkUploadResult None (Some message), [storage_upload path file])
  | resolves None =>
      let url := publicUrl env path in
      match update_response env with
      | rejects =>
          (mkUploadResult None (Some "Failed to upload profile picture"),
           [storage_upload path file; update_profile_picture_url userId url])
      | resolves (Some message) =>
          (mkUploadResult None (Some message),
           [storage_upload path file; update_profile_picture_url userId url])
      | resolves None =>
          (mkUploadResult (Some url) None,
           [storage_upload path file; update_profile_picture_url userId url])
      end
  end.

(** The state of the profile editor of the chat room page. *)
Record Editor := mkEditor {
  user : option User.t;
  profile : option User.t;
  isProfileOpen : bool;
  editName : string;
  editFile : option Signup.File;
  editSaving : bool;
  editError : option string;
}.

(** What the update of the name resolves to or rejects with. *)
Inductive name_update :=
| name_updated
| name_update_error (message : string)
| name_update_rejects (message : option string).

(** What [handleSaveProfile] gets from outside: what
    [uploadProfilePicture] needs, and the outcome of the update of the
    name. *)
Record SaveEnv := mkSaveEnv {
  upload_env : UploadEnv;
  name_update_response : name_update;
}.

(** The [try] block of [handleSaveProfile], for the signed-in user [u]
    and [effectiveProfile]: the new profile, or the message of the error
    thrown. *)
Definition save_try (env : SaveEnv) (u effectiveProfile : User.t) (e : Editor)
  : (User.t + string) * list request :=
  let '(avatar, requests1) :=
    match editFile e with
    | Some file =>
        let '(r, requests) := uploadProfilePicture (upload_env env) file (User.id u) in
        if JsText.present (upload_error r) || negb (JsText.present (url r)) then
          (inr (JsText.or_else (upload_error r) "Failed to upload profile picture"),
           requests)
        else (inl (url r), requests)
    | None => (inl (User.profile_picture_url effectiveProfile), [])
    end in
  match avatar with
  | inr message => (inr message, requests1)
  | inl newAvatarUrl =>
      let updated :=
        User.mk (User.id effectiveProfile) (User.email effectiveProfile)
                (editName e) newAvatarUrl (User.created_at effectiveProfile) in
      if bool_decide (editName e ≠ User.name effectiveProfile) then
        match name_update_response env with
        | name_update_rejects message =>
            (inr (JsText.or_else message "Failed to update profile"),
             requests1 ++ [update_name (User.id u) (editName e)])
        | name_update_error message =>
            (inr (JsText.or_else (Some message) "Failed to update profile"),
             requests1 ++ [update_name (User.id u) (editName e)])
        | name_updated =>
            (inl updated, requests1 ++ [update_name (User.id u) (editName e)])
        end
      else (inl updated, requests1)
  end.

(** Every request a save has to make succeeds: the upload of the new
    picture, if one was chosen, with the update of [users] that follows
    it and a public URL that is not empty, and the update of the name,
    if the name was edited. *)
Definition save_succeeds (env : SaveEnv) (u effectiveProfile : User.t) (e : Editor)
  : Prop :=
  match editFile e with
  | Some file =>
      upload_response (upload_env env) = resolves None
      ∧ update_response (upload_env env) = resolves None
      ∧ publicUrl (upload_env env)
                  (filePath (User.id u) (now (upload_env env)) file) ≠ ""
  | None => True
  end
  ∧ (editName e ≠ User.name effectiveProfile →
     name_update_response env = name_updated).

(** [handleSaveProfile]. *)
Definition handleSaveProfile (env : SaveEnv) (e : Editor) : Editor * list request :=
  match user e with
  | None => (e, [])
  | Some u =>
      let effectiveProfile := default u (profile e) in
      match save_try env u effectiveProfile e with
      | (inl updatedProfile, requests) =>
          (mkEditor (user e) (Some updatedProfile) false (editName e)
                    (editFile e) false None,
           requests)
      | (inr message, requests) =>
          (mkEditor (user e) (profile e) (isProfileOpen e) (editName e)
                    (editFile e) false (Some message),
           requests)
      end
  end.

End Profile.

(** Alice's editor, open, with a new name typed in and no new picture. *)
Definition alice_editor (new_name : string) : Profile.Editor :=
  Profile.mkEditor (Some alice) (Some alice) true new_name None false None.

(** * Properties *)

(** ** JavaScript maps *)

Section js_map_facts.
Context {V : Type}.
Implicit Types (m : JsMap.t V) (k : string) (v : V).

Lemma get_set_eq m k v : JsMap.get k (JsMap.set k v m) = Some v.
Proof.
  induction m as [|[k' v'] m IH]; simpl.
  - by rewrite bool_decide_eq_true_2.
  - destruct (bool_decide (k' = k)) eqn:E; simpl.
    + by rewrite bool_decide_eq_true_2.
    + by rewrite E.
Qed.

Lemma get_set_ne m k k' v : k ≠ k' → JsMap.get k' (JsMap.set k v m) = JsMap.get k' m.
Proof.
  intros Hne. induction m as [|[k0 v0] m IH]; simpl.
  - by rewrite bool_decide_eq_false_2.
  - destruct (bool_decide (k0 = k)) eqn:E; simpl.
    + apply bool_decide_eq_true_1 in E as ->.
      by rewrite !bool_decide_eq_false_2.
    + by rewrite IH.
Qed.

Lemma get_None_keys m k : JsMap.get k m = None ↔ k ∉ JsMap.keys m.
Proof.
  induction m as [|[k' v'] m IH]; simpl.
  - split; [intros _; apply not_elem_of_nil | done].
  - rewrite not_elem_of_cons. case_bool_decide as E; simpl.
    + split; [done | intros [? _]; congruence].
    + rewrite IH. split; [by intros ? | by intros [_ ?]].
Qed.

Lemma keys_set m k v :
  JsMap.keys (JsMap.set k v m)
  = match JsMap.get k m with
    | Some _ => JsMap.keys m
    | None => JsMap.keys m ++ [k]
    end.
Proof.
  induction m as [|[k' v'] m IH]; simpl; [done|].
  case_bool_decide as E; simpl.
  - by subst.
  - rewrite IH. by destruct (JsMap.get k m).
Qed.

Lemma NoDup_keys_set m k v : NoDup (JsMap.keys m) → NoDup (JsMap.keys (JsMap.set k v m)).
Proof.
  intros Hnd. rewrite keys_set. destruct (JsMap.get k m) eqn:E; [done|].
  apply NoDup_app. split_and!; [done | | apply NoDup_singleton].
  intros x Hx ->%list_elem_of_singleton. by apply get_None_keys in E.
Qed.

Lemma keys_delete_subseteq m k : JsMap.keys (JsMap.delete k m) ⊆ JsMap.keys m.
Proof.
  induction m as [|[k' v'] m IH]; simpl; [done|].
  case_bool_decide; simpl.
  - intros x Hx. by right.
  - intros x [->|Hx]%elem_of_cons; [left | right; by apply IH].
Qed.

Lemma NoDup_keys_delete m k : NoDup (JsMap.keys m) → NoDup (JsMap.keys (JsMap.delete k m)).
Proof.
  induction m as [|[k' v'] m IH]; simpl; [done|].
  intros [Hk Hm]%NoDup_cons. case_bool_decide; simpl; [done|].
  apply NoDup_cons. split; [|by apply IH].
  intros Hin. by apply keys_delete_subseteq in Hin.
Qed.

Lemma get_delete_eq m k : NoDup (JsMap.keys m) → JsMap.get k (JsMap.delete k m) = None.
Proof.
  induction m as [|[k' v'] m IH]; simpl; [done|].
  intros [Hk Hm]%NoDup_cons. case_bool_decide as E; simpl.
  - subst. by apply get_None_keys.
  - rewrite bool_decide_eq_false_2; auto.
Qed.

Lemma get_delete_ne m k k' : k ≠ k' → JsMap.get k' (JsMap.delete k m) = JsMap.get k' m.
Proof.
  intros Hne. induction m as [|[k0 v0] m IH]; simpl; [done|].
  case_bool_decide as E; simpl.
  - subst. by rewrite bool_decide_eq_false_2.
  - by rewrite IH.
Qed.

Lemma elem_of_get m k v : NoDup (JsMap.keys m) → (k, v) ∈ m ↔ JsMap.get k m = Some v.
Proof.
  induction m as [|[k' v'] m IH]; simpl.
  - intros _. split; [by intros ?%elem_of_nil | done].
  - intros [Hk Hm]%NoDup_cons. rewrite elem_of_cons, (IH Hm).
    case_bool_decide as E.
    + subst. split; [intros [[= ->]|Hget]; [done|] | intros [= ->]; by left].
      exfalso. apply Hk. apply dec_stable. intros Hn.
      apply get_None_keys in Hn. congruence.
    + split; [intros [[= ? ?]|?]; [congruence | done] | by right].
Qed.


End js_map_facts.

(** ** JavaScript values *)

Section js_value_facts.
Implicit Types (v : Js.value).

Lemma truthy_not_nullish v : Js.truthy v = true → Js.nullish v = false.
Proof. by destruct v. Qed.

Lemma prop_not_nullish key v :
  Js.nullish v = false →
  Js.prop key v = Some (default Js.undefined (Js.prop key v)).
Proof. by destruct v. Qed.

End js_value_facts.

(** ** The presence registry *)

Section registry_facts.
Import Registry.
Implicit Types (r : registry).

Lemma NoDup_keys_unregister r id :
  NoDup (JsMap.keys r) → NoDup (JsMap.keys (unregister id r)).
Proof.
  intros Hnd. unfold unregister.
  destruct (Js.truthy (get id r)); [by apply NoDup_keys_delete | done].
Qed.

Lemma get_unregister_eq r id :
  NoDup (JsMap.keys r) →
  JsMap.get id (unregister id r)
  = if Js.truthy (get id r) then None else JsMap.get id r.
Proof.
  intros Hnd. unfold unregister.
  destruct (Js.truthy (get id r)); [by apply get_delete_eq | done].
Qed.

Lemma get_unregister_ne r id id' :
  id ≠ id' → JsMap.get id' (unregister id r) = JsMap.get id' r.
Proof.
  intros Hne. unfold unregister.
  destruct (Js.truthy (get id r)); [by apply get_delete_ne | done].
Qed.

Lemma registry_get_absent r id : lookup id r = None → get id r = Js.undefined.
Proof. unfold lookup, get. by intros ->. Qed.

Lemma registry_get_present r id u : lookup id r = Some u → get id r = u.
Proof. unfold lookup, get. by intros ->. Qed.

Lemma unregister_idempotent r id :
  NoDup (JsMap.keys r) → unregister id (unregister id r) = unregister id r.
Proof.
  intros Hnd. unfold unregister at 1. unfold get.
  rewrite get_unregister_eq by done.
  destruct (Js.truthy (get id r)) eqn:E; [done|].
  fold (get id r). by rewrite E.
Qed.

(** Registering a connection id that already has an entry replaces the
    payload and leaves the number of entries unchanged. *)
Lemma register_twice_overwrites r id u u' :
  JsMap.keys (register id u' (register id u r)) = JsMap.keys (register id u r)
  ∧ lookup id (register id u' (register id u r)) = Some u'.
Proof.
  unfold register, lookup. split; [|apply get_set_eq].
  by rewrite (keys_set (JsMap.set id u r)), get_set_eq.
Qed.

End registry_facts.

(** ** The relay *)

Section relay_facts.
Implicit Types (s : Relay) (r : registry) (c : string) (e : server_event).

(** A join whose payload is neither [undefined] nor [null] runs to its
    end. *)
Lemma on_user_join_normal id userData r :
  Js.nullish userData = false →
  on_user_join id userData r
  = (normal tt, Registry.register id userData r,
     [MapSet id userData;
      Emit io_all (user_joined (userId userData) (userName userData)
                               (userAvatar userData) id);
      Emit (socket_only id)
           (users_online (Registry.onlineUsers (Registry.register id userData r)))]).
Proof. by destruct userData. Qed.

(** With [undefined] or [null] as payload, the entry is set and the
    first property read throws. *)
Lemma on_user_join_abrupt id userData r :
  Js.nullish userData = true →
  on_user_join id userData r
  = (abrupt, Registry.register id userData r, [MapSet id userData]).
Proof. by destruct userData. Qed.

Lemma on_user_join_registry id userData r :
  (on_user_join id userData r).1.2 = Registry.register id userData r.
Proof.
  destruct (Js.nullish userData) eqn:E.
  - by rewrite on_user_join_abrupt.
  - by rewrite on_user_join_normal.
Qed.

Lemma on_disconnect_falsy r id :
  Js.truthy (Registry.get id r) = false → on_disconnect id r = (normal tt, r, []).
Proof.
  intros Hf. unfold on_disconnect, mbind, handler_bind, connectedUsers_get.
  by rewrite Hf.
Qed.

Lemma on_disconnect_truthy r id :
  Js.truthy (Registry.get id r) = true →
  on_disconnect id r
  = (normal tt, JsMap.delete id r,
     [MapDelete id;
      Emit io_all (user_left (userId (Registry.get id r))
                             (userName (Registry.get id r)) id)]).
Proof.
  intros Ht. unfold on_disconnect, mbind, handler_bind, connectedUsers_get.
  rewrite Ht. by destruct (Registry.get id r).
Qed.

Lemma on_disconnect_registry id r :
  (on_disconnect id r).1.2 = Registry.unregister id r.
Proof.
  unfold Registry.unregister. destruct (Js.truthy (Registry.get id r)) eqn:E.
  - by rewrite on_disconnect_truthy.
  - by rewrite on_disconnect_falsy.
Qed.

Lemma step_connected s id ev :
  id ∈ connections s →
  step s id ev =
    match ev with
    | connection => (s, [])
    | user_join userData =>
        run_handler (connections s) (on_user_join id userData) (connectedUsers s)
    | message_send message =>
        run_handler (connections s) (on_message_send id message) (connectedUsers s)
    | typing_start data =>
        run_handler (connections s) (on_typing_start id data) (connectedUsers s)
    | typing_stop data =>
        run_handler (connections s) (on_typing_stop id data) (connectedUsers s)
    | disconnect =>
        run_handler (filter (λ c, c ≠ id) (connections s))
                    (on_disconnect id) (connectedUsers s)
    end.
Proof. intros Hin. unfold step. by rewrite bool_decide_eq_true_2. Qed.

Lemma step_not_connected s id ev :
  id ∉ connections s →
  step s id ev =
    match ev with
    | connection => (mkRelay (connections s ++ [id]) (connectedUsers s), [])
    | _ => (s, [])
    end.
Proof. intros Hin. unfold step. by rewrite bool_decide_eq_false_2. Qed.

Lemma run_handler_state conns (h : Handler unit) r :
  (run_handler conns h r).1 = mkRelay conns (h r).1.2.
Proof. unfold run_handler. by destruct (h r) as [[? ?] ?]. Qed.

(** The registry after a step. *)
Lemma connectedUsers_step s id ev :
  connectedUsers (step s id ev).1
  = if bool_decide (id ∈ connections s) then
      match ev with
      | user_join userData => Registry.register id userData (connectedUsers s)
      | disconnect => Registry.unregister id (connectedUsers s)
      | _ => connectedUsers s
      end
    else connectedUsers s.
Proof.
  case_bool_decide as Hin.
  - rewrite step_connected by done.
    destruct ev; try done; rewrite run_handler_state; simpl.
    + apply on_user_join_registry.
    + apply on_disconnect_registry.
  - rewrite step_not_connected by done. by destruct ev.
Qed.

Lemma filter_ne_absent (conns : list string) id :
  id ∉ conns → filter (λ c, c ≠ id) conns = conns.
Proof.
  induction conns as [|c conns IH]; [done|].
  intros [Hne Hin]%not_elem_of_cons.
  rewrite filter_cons_True by done. f_equal. by apply IH.
Qed.

(** The connections after a step. *)
Lemma connections_step s id ev :
  connections (step s id ev).1
  = match ev with
    | connection =>
        if bool_decide (id ∈ connections s) then connections s
        else connections s ++ [id]
    | disconnect => filter (λ c, c ≠ id) (connections s)
    | _ => connections s
    end.
Proof.
  destruct (decide (id ∈ connections s)) as [Hin|Hin].
  - rewrite step_connected by done.
    destruct ev; rewrite ?run_handler_state; simpl; try done.
    by rewrite bool_decide_eq_true_2.
  - rewrite step_not_connected by done.
    destruct ev; simpl; try done.
    + by rewrite bool_decide_eq_false_2.
    + symmetry. by apply filter_ne_absent.
Qed.

(** What one socket receives from one emit addressed to [conns]. *)
Lemma received_by_fmap (conns : list string) c e :
  NoDup conns →
  received_by c ((λ c', (c', e)) <$> conns) = if bool_decide (c ∈ conns) then [e] else [].
Proof.
  unfold received_by. induction conns as [|c' conns IH]; intros Hnd.
  - by rewrite bool_decide_eq_false_2 by apply not_elem_of_nil.
  - apply NoDup_cons in Hnd as [Hc' Hnd]. rewrite fmap_cons, filter_cons.
    destruct (decide ((c', e).1 = c)) as [Hd|Hd]; simpl in Hd.
    + subst c'. rewrite bool_decide_eq_true_2 by left.
      rewrite fmap_cons. simpl. f_equal.
      etrans; [apply (IH Hnd)|]. by rewrite bool_decide_eq_false_2.
    + etrans; [apply (IH Hnd)|].
      apply (f_equal (λ b : bool, if b then [e] else [])).
      apply bool_decide_ext. rewrite elem_of_cons.
      split; [by right | by intros [->|?]].
Qed.

Lemma received_by_app c ds1 ds2 :
  received_by c (ds1 ++ ds2) = received_by c ds1 ++ received_by c ds2.
Proof. unfold received_by. by rewrite filter_app, fmap_app. Qed.

Lemma elem_of_filter_ne (conns : list string) id c : c ∈ filter (λ c', c' ≠ id) conns ↔ c ∈ conns ∧ c ≠ id.
Proof. rewrite list_elem_of_filter. tauto. Qed.

(** Every reachable state has distinct connections, one registry entry
    per connection id at most, and no entry with a truthy payload
    without its connection. *)
Lemma reachable_invariant s :
  reachable s →
  NoDup (connections s)
  ∧ NoDup (JsMap.keys (connectedUsers s))
  ∧ (∀ id u, JsMap.get id (connectedUsers s) = Some u →
             Js.truthy u = true → id ∈ connections s).
Proof.
  induction 1 as [|s id ev _ (Hc & Hk & Hlive)].
  - split_and!; [apply NoDup_nil_2 | apply NoDup_nil_2 | done].
  - rewrite connectedUsers_step, connections_step.
    destruct (decide (id ∈ connections s)) as [Hin|Hin].
    + rewrite !bool_decide_eq_true_2 by done.
      destruct ev; try done.
      * split_and!; [done | by apply NoDup_keys_set |].
        intros id' u. unfold Registry.register.
        destruct (decide (id = id')) as [<-|Hne]; [done|].
        rewrite get_set_ne by done. apply Hlive.
      * split_and!; [by apply NoDup_filter | by apply NoDup_keys_unregister |].
        intros id' u. rewrite elem_of_filter_ne.
        destruct (decide (id = id')) as [<-|Hne].
        -- rewrite get_unregister_eq by done.
           destruct (Js.truthy (Registry.get id (connectedUsers s))) eqn:E; [done|].
           intros Hget Ht. apply registry_get_present in Hget. congruence.
        -- rewrite get_unregister_ne by done. intros Hget Ht.
           split; [by eapply Hlive | done].
    + rewrite !bool_decide_eq_false_2 by done.
      destruct ev; try done.
      * split_and!; [|done|].
        -- apply NoDup_app. split_and!; [done | | apply NoDup_singleton].
           by intros x Hx ->%list_elem_of_singleton.
        -- intros id' u Hget Ht. apply elem_of_app. left. by eapply Hlive.
      * split_and!; [by apply NoDup_filter | done |].
        intros id' u Hget Ht. apply elem_of_filter_ne.
        split; [by eapply Hlive|]. intros ->. apply Hin. by eapply Hlive.
Qed.

End relay_facts.

(** ** The registry along the history of the relay *)

Section registry_history.
Implicit Types (events : list (string * client_event)) (id : string) (u : Js.value).








End registry_history.

Section relay_protocol.
Implicit Types (s : Relay) (c : string).

Lemma three_clients_reachable : reachable three_clients.
Proof. unfold three_clients. repeat constructor. Qed.

Lemma ann_joined_reachable : reachable ann_joined.
Proof. unfold ann_joined. constructor. apply three_clients_reachable. Qed.

Lemma relay_eta s : mkRelay (connections s) (connectedUsers s) = s.
Proof. by destruct s. Qed.

(** C5. A [message:send] from a connected socket is answered with one
    [message:received] carrying the same payload to every connected
    socket, the sender included; the relay state does not change. *)
Theorem C5_message_is_broadcast_to_all_including_sender s sender message :
  reachable s →
  sender ∈ connections s →
  step s sender (message_send message)
  = (s, (λ c, (c, message_received message)) <$> connections s)
  ∧ (∀ c, c ∈ connections s →
       received_by c (step s sender (message_send message)).2
       = [message_received message])
  ∧ received_by sender (step s sender (message_send message)).2
    = [message_received message].
Proof.
  intros [Hnd _]%reachable_invariant Hin.
  assert (Hstep : step s sender (message_send message)
                  = (s, (λ c, (c, message_received message)) <$> connections s)).
  { rewrite step_connected by done. unfold run_handler, deliveries. simpl.
    by rewrite app_nil_r, relay_eta. }
  assert (Hall : ∀ c, c ∈ connections s →
            received_by c (step s sender (message_send message)).2
            = [message_received message]).
  { intros c Hc. rewrite Hstep. simpl.
    by rewrite received_by_fmap, bool_decide_eq_true_2. }
  split_and!; [done | done | by apply Hall].
Qed.

(** With three connected clients, a message from [A] is received once by
    each of [A], [B] and [C]. *)
Lemma C5_three_clients_witness :
  reachable three_clients
  ∧ "A" ∈ connections three_clients
  ∧ step three_clients "A" (message_send hi)
    = (three_clients,
       [("A", message_received hi); ("B", message_received hi);
        ("C", message_received hi)])
  ∧ (∀ c, c ∈ connections three_clients →
       received_by c (step three_clients "A" (message_send hi)).2
       = [message_received hi])
  ∧ received_by "A" (step three_clients "A" (message_send hi)).2
    = [message_received hi].
Proof.
  split; [exact three_clients_reachable|].
  split; [vm_compute; by left|].
  apply (C5_message_is_broadcast_to_all_including_sender three_clients "A" hi).
  - exact three_clients_reachable.
  - vm_compute. by left.
Defined.

(** C7. A [typing:start] or [typing:stop] from a connected socket is
    passed on as [user:typing] or [user:stopped-typing] to every other
    connected socket, once each, and never to the sender. *)
Theorem C7_typing_is_broadcast_to_others_only s sender start stop :
  reachable s →
  sender ∈ connections s →
  step s sender (typing_start start)
  = (s, (λ c, (c, user_typing start)) <$> filter (λ c, c ≠ sender) (connections s))
  ∧ step s sender (typing_stop stop)
    = (s, (λ c, (c, user_stopped_typing stop))
            <$> filter (λ c, c ≠ sender) (connections s))
  ∧ (∀ c, received_by c (step s sender (typing_start start)).2
          = if bool_decide (c ∈ connections s ∧ c ≠ sender)
            then [user_typing start] else [])
  ∧ (∀ c, received_by c (step s sender (typing_stop stop)).2
          = if bool_decide (c ∈ connections s ∧ c ≠ sender)
            then [user_stopped_typing stop] else [])
  ∧ received_by sender (step s sender (typing_start start)).2 = []
  ∧ received_by sender (step s sender (typing_stop stop)).2 = [].
Proof.
  intros [Hnd _]%reachable_invariant Hin.
  assert (Hstart : step s sender (typing_start start)
    = (s, (λ c, (c, user_typing start)) <$> filter (λ c, c ≠ sender) (connections s))).
  { rewrite step_connected by done. unfold run_handler, deliveries. simpl.
    by rewrite app_nil_r, relay_eta. }
  assert (Hstop : step s sender (typing_stop stop)
    = (s, (λ c, (c, user_stopped_typing stop))
            <$> filter (λ c, c ≠ sender) (connections s))).
  { rewrite step_connected by done. unfold run_handler, deliveries. simpl.
    by rewrite app_nil_r, relay_eta. }
  assert (Hrecv : ∀ e c,
    received_by c ((λ c', (c', e)) <$> filter (λ c', c' ≠ sender) (connections s))
    = if bool_decide (c ∈ connections s ∧ c ≠ sender) then [e] else []).
  { intros e c. rewrite received_by_fmap by by apply NoDup_filter.
    apply (f_equal (λ b : bool, if b then [e] else [])).
    apply bool_decide_ext, elem_of_filter_ne. }
  rewrite Hstart, Hstop. simpl. split_and!; try done.
  - rewrite Hrecv. by rewrite bool_decide_eq_false_2 by (by intros [_ ?]).
  - rewrite Hrecv. by rewrite bool_decide_eq_false_2 by (by intros [_ ?]).
Qed.

(** A typing event from [A] is seen by [B] and [C] but not by [A]. *)
Lemma C7_three_clients_witness :
  reachable three_clients
  ∧ "A" ∈ connections three_clients
  ∧ (step three_clients "A" (typing_start (mkTypingData "u1" "Ann"))).2
    = [("B", user_typing (mkTypingData "u1" "Ann"));
       ("C", user_typing (mkTypingData "u1" "Ann"))]
  ∧ (step three_clients "A" (typing_stop (mkStopTypingData "u1"))).2
    = [("B", user_stopped_typing (mkStopTypingData "u1"));
       ("C", user_stopped_typing (mkStopTypingData "u1"))].
Proof.
  split; [exact three_clients_reachable|].
  split; [vm_compute; by left|].
  destruct (C7_typing_is_broadcast_to_others_only three_clients "A"
              (mkTypingData "u1" "Ann") (mkStopTypingData "u1")
              three_clients_reachable) as (Hstart & Hstop & _).
  - vm_compute. by left.
  - rewrite Hstart, Hstop. split; reflexivity.
Defined.

End relay_protocol.

Section relay_presence.
Implicit Types (s : Relay) (r : registry) (c : string).

(** C6, as amended. When the transport of a connected socket detaches:
    if the socket has a registry entry whose payload is truthy, as every
    participant object is, the entry is removed and every remaining
    connection receives exactly one [user:left] naming the participant
    and the socket, while the departed socket receives nothing and is
    absent from the registry afterwards; if it has no entry, the
    registry is unchanged and nothing is emitted.  Unregistering is
    idempotent, a disconnect for an id without an entry emits nothing,
    and a second disconnect of the same socket does nothing at all. *)
Theorem C6_disconnect_unregisters_a_truthy_entry_and_notifies_the_rest s id :
  reachable s →
  id ∈ connections s →
  match Registry.lookup id (connectedUsers s) with
  | Some u =>
      Js.truthy u = true →
      step s id disconnect
      = (mkRelay (filter (λ c, c ≠ id) (connections s))
                 (JsMap.delete id (connectedUsers s)),
         (λ c, (c, user_left (userId u) (userName u) id))
           <$> filter (λ c, c ≠ id) (connections s))
      ∧ (∀ c, received_by c (step s id disconnect).2
              = if bool_decide (c ∈ connections s ∧ c ≠ id)
                then [user_left (userId u) (userName u) id] else [])
      ∧ (∀ u', (id, u') ∉ connectedUsers (step s id disconnect).1)
  | None =>
      step s id disconnect
      = (mkRelay (filter (λ c, c ≠ id) (connections s)) (connectedUsers s), [])
  end
  ∧ connectedUsers (step s id disconnect).1
    = Registry.unregister id (connectedUsers s)
  ∧ Registry.unregister id (Registry.unregister id (connectedUsers s))
    = Registry.unregister id (connectedUsers s)
  ∧ (∀ r id', Registry.lookup id' r = None →
       Registry.unregister id' r = r ∧ on_disconnect id' r = (normal tt, r, []))
  ∧ step (step s id disconnect).1 id disconnect = ((step s id disconnect).1, []).
Proof.
  intros (Hnd & Hk & _)%reachable_invariant Hin.
  assert (Hreg : connectedUsers (step s id disconnect).1
                 = Registry.unregister id (connectedUsers s)).
  { by rewrite connectedUsers_step, bool_decide_eq_true_2. }
  assert (Hconns : connections (step s id disconnect).1
                   = filter (λ c, c ≠ id) (connections s)).
  { by rewrite connections_step. }
  split_and!; [| done | by apply unregister_idempotent | |].
  - destruct (Registry.lookup id (connectedUsers s)) as [u|] eqn:Hlook.
    + intros Ht. pose proof (registry_get_present _ _ _ Hlook) as Hget.
      assert (Hstep : step s id disconnect
        = (mkRelay (filter (λ c, c ≠ id) (connections s))
                   (JsMap.delete id (connectedUsers s)),
           (λ c, (c, user_left (userId u) (userName u) id))
             <$> filter (λ c, c ≠ id) (connections s))).
      { rewrite step_connected by done. unfold run_handler.
        rewrite on_disconnect_truthy by by rewrite Hget.
        rewrite Hget. unfold deliveries. simpl. by rewrite app_nil_r. }
      split_and!; [done | |].
      * intros c. rewrite Hstep. simpl.
        rewrite received_by_fmap by by apply NoDup_filter.
        apply (f_equal (λ b : bool, if b then [_] else [])).
        apply bool_decide_ext, elem_of_filter_ne.
      * intros u'. rewrite Hreg.
        rewrite elem_of_get by by apply NoDup_keys_unregister.
        rewrite get_unregister_eq by done. by rewrite Hget, Ht.
    + rewrite step_connected by done. unfold run_handler.
      rewrite on_disconnect_falsy; [done|].
      by rewrite (registry_get_absent _ _ Hlook).
  - intros r id' Hnone. pose proof (registry_get_absent _ _ Hnone) as Hget.
    split; [|apply on_disconnect_falsy; by rewrite Hget].
    unfold Registry.unregister. by rewrite Hget.
  - apply step_not_connected. rewrite Hconns, elem_of_filter_ne. by intros [_ ?].
Qed.

(** Ann joined on socket [A] and then loses her connection: [B] and [C]
    get one [user:left] each and the registry is empty again. *)
Lemma C6_ann_leaves_witness :
  reachable ann_joined
  ∧ "A" ∈ connections ann_joined
  ∧ Registry.lookup "A" (connectedUsers ann_joined) = Some ann
  ∧ Js.truthy ann = true
  ∧ step ann_joined "A" disconnect
    = (mkRelay ["B"; "C"] [],
       [("B", user_left (Js.text "u1") (Js.text "Ann") "A");
        ("C", user_left (Js.text "u1") (Js.text "Ann") "A")]).
Proof.
  split; [exact ann_joined_reachable|].
  split; [vm_compute; by left|].
  split; [reflexivity|]. split; [reflexivity|].
  assert ("A" ∈ connections ann_joined) as Hin by (vm_compute; by left).
  pose proof (C6_disconnect_unregisters_a_truthy_entry_and_notifies_the_rest
                ann_joined "A" ann_joined_reachable Hin) as [H _].
  change (Registry.lookup "A" (connectedUsers ann_joined)) with (Some ann) in H.
  destruct (H eq_refl) as [Hstep _]. exact Hstep.
Defined.

(** C6 as the specification states it does not hold: socket [A] joined
    with the number 0 as payload, so it has a registry entry; when it
    disconnects the entry stays, no remaining connection is sent a
    [user:left], and the payload is in the online list sent to the next
    socket that joins. *)
Lemma C6_counterexample_falsy_entry_outlives_its_connection :
  reachable zero_joined
  ∧ "A" ∈ connections zero_joined
  ∧ Registry.lookup "A" (connectedUsers zero_joined) = Some Js.zero
  ∧ step zero_joined "A" disconnect
    = (mkRelay ["B"; "C"] [("A", Js.zero)], [])
  ∧ received_by "B" (step (step zero_joined "A" disconnect).1 "B" (user_join ann)).2
    = [user_joined (Js.text "u1") (Js.text "Ann") Js.undefined "B";
       users_online [Js.zero; ann]].
Proof.
  split_and!; [| vm_compute; by left | reflexivity | reflexivity | reflexivity].
  unfold zero_joined. constructor. exact three_clients_reachable.
Qed.



End relay_presence.


(** ** [trim] and the send guard *)

Section js_string_facts.
Import JsString.

Lemma trimStart_nil s : trimStart s = [] ↔ blank s = true.
Proof.
  induction s as [|c s IH]; simpl; [done|].
  destruct (is_white_space c); simpl; [done|]. split; discriminate.
Qed.

Lemma trimStart_blank_iff s : blank (trimStart s) = true ↔ blank s = true.
Proof.
  induction s as [|c s IH]; simpl; [done|].
  destruct (is_white_space c) eqn:E; simpl; [done|]. by rewrite E.
Qed.

Lemma blank_Forall s : blank s = true ↔ Forall (λ c, is_white_space c = true) s.
Proof.
  induction s as [|c s IH]; simpl; [by split|].
  rewrite Forall_cons, <-IH, andb_true_iff. done.
Qed.

Lemma blank_reverse s : blank (reverse s) = blank s.
Proof.
  apply eq_true_iff_eq. by rewrite !blank_Forall, Forall_reverse.
Qed.

(** [!newMessage.trim()] holds exactly for the blank drafts. *)
Lemma trim_falsy_iff_blank s : truthy (trim s) = false ↔ blank s = true.
Proof.
  transitivity (trim s = []).
  { unfold truthy. destruct (trim s); split; done. }
  unfold trim, trimEnd.
  rewrite <-(reverse_involutive []) at 1.
  split.
  - intros Heq%(inj reverse). change (reverse []) with (@nil N) in Heq.
    apply trimStart_nil in Heq. rewrite blank_reverse in Heq.
    by apply trimStart_blank_iff.
  - intros Hb. f_equal. change (reverse []) with (@nil N).
    apply trimStart_nil. rewrite blank_reverse. by apply trimStart_blank_iff.
Qed.

End js_string_facts.

(** ** [handleSendMessage] *)

Section send_facts.
Import Client.

(** C10. When the draft is empty or all white space, or nobody is signed
    in, [handleSendMessage] returns at once: the table is as it was (no
    insert, no clean-up), nothing is emitted on the socket, and the
    component state, the draft included, is unchanged. *)
Theorem C10_blank_or_signed_out_send_does_nothing env session st db :
  JsString.blank (newMessage st) = true ∨ user st = None →
  handleSendMessage env session st db = (st, db)
  ∧ emitted_by st (handleSendMessage env session st db).1 = []
  ∧ newMessage (handleSendMessage env session st db).1 = newMessage st
  ∧ (handleSendMessage env session st db).2 = db.
Proof.
  intros Hguard.
  assert (Hnoop : handleSendMessage env session st db = (st, db)).
  { unfold handleSendMessage. destruct (user st) as [u|]; [|done].
    destruct Hguard as [Hblank|]; [|done].
    apply trim_falsy_iff_blank in Hblank. by rewrite Hblank. }
  rewrite Hnoop. simpl. split_and!; try done.
  unfold emitted_by. destruct (socket st) as [sock|]; simpl; [|done].
  by rewrite drop_all.
Qed.

(** A draft of two spaces and a line feed, sent by Alice. *)
Lemma C10_blank_draft_witness :
  (JsString.blank [32; 32; 10]%N = true ∨ user (alice_room [32; 32; 10]%N) = None)
  ∧ handleSendMessage (env_at 51 100) (Store.authenticated "A")
                      (alice_room [32; 32; 10]%N) (bobs_table 3)
    = (alice_room [32; 32; 10]%N, bobs_table 3).
Proof.
  split; [by left|].
  apply (C10_blank_or_signed_out_send_does_nothing
           (env_at 51 100) (Store.authenticated "A")
           (alice_room [32; 32; 10]%N) (bobs_table 3)).
  left. reflexivity.
Defined.

(** The other side of the guard: with a signed-in user and a draft that
    is not blank, the outcome is decided by the insert alone. *)
Lemma handleSendMessage_unfold env session st db u :
  user st = Some u →
  JsString.blank (newMessage st) = false →
  handleSendMessage env session st db
  = match supabase_insert env session (Message.to_row (messageData env u st)) db with
    | None => (st, db)
    | Some db1 =>
        (mkChatRoom (user st) (profile st) (messages st) []
                    (socket_emit_if_connected (messageData env u st) (socket st)),
         enforce_max_messages env session db1)
    end.
Proof.
  intros Hu Hblank. unfold handleSendMessage. rewrite Hu.
  destruct (JsString.truthy (JsString.trim (newMessage st))) eqn:E; [done|].
  apply trim_falsy_iff_blank in E. congruence.
Qed.

(** C3, as amended. When the insert fails, [handleSendMessage] stops
    there: no clean-up runs, nothing is emitted on the socket, the draft
    is kept, and the state of the component is what it was, so no
    failure is recorded anywhere.  The emit happens only after a
    successful insert. *)
Theorem C3_failed_insert_stops_the_send env session st db u :
  user st = Some u →
  JsString.blank (newMessage st) = false →
  supabase_insert env session (Message.to_row (messageData env u st)) db = None →
  handleSendMessage env session st db = (st, db)
  ∧ emitted_by st (handleSendMessage env session st db).1 = [].
Proof.
  intros Hu Hblank Hfail.
  rewrite (handleSendMessage_unfold _ _ _ _ _ Hu Hblank), Hfail. simpl.
  split; [done|]. unfold emitted_by.
  destruct (socket st) as [sock|]; simpl; [|done]. by rewrite drop_all.
Qed.

(** Alice sends "hi" while the insert request fails. *)
Lemma C3_failed_insert_witness :
  user (alice_room [104; 105]%N) = Some alice
  ∧ JsString.blank [104; 105]%N = false
  ∧ supabase_insert (env_insert_fails 51 100) (Store.authenticated "A")
      (Message.to_row (messageData (env_insert_fails 51 100) alice
                                   (alice_room [104; 105]%N)))
      (bobs_table 3) = None
  ∧ handleSendMessage (env_insert_fails 51 100) (Store.authenticated "A")
                      (alice_room [104; 105]%N) (bobs_table 3)
    = (alice_room [104; 105]%N, bobs_table 3).
Proof.
  split_and!; [reflexivity | reflexivity | reflexivity |].
  apply (C3_failed_insert_stops_the_send
           (env_insert_fails 51 100) (Store.authenticated "A")
           (alice_room [104; 105]%N) (bobs_table 3) alice);
    reflexivity.
Defined.

(** C3 as the specification states it does not hold: here the insert
    fails, the socket is connected, and nothing is emitted. *)
Lemma C3_counterexample_no_emit_after_failed_insert :
  ¬ (∀ env session st db u sock,
       user st = Some u →
       JsString.blank (newMessage st) = false →
       socket st = Some sock → connected sock = true →
       supabase_insert env session (Message.to_row (messageData env u st)) db = None →
       emitted_by st (handleSendMessage env session st db).1 ≠ []).
Proof.
  intros Hclaim.
  apply (Hclaim (env_insert_fails 51 100) (Store.authenticated "A")
                (alice_room [104; 105]%N) (bobs_table 3) alice
                (mkSocket true [])); reflexivity.
Qed.

(** After a successful insert the clean-up runs, the message is emitted
    if the socket is connected, and the draft is cleared. *)
Lemma handleSendMessage_after_insert env session st db u db1 :
  user st = Some u →
  JsString.blank (newMessage st) = false →
  supabase_insert env session (Message.to_row (messageData env u st)) db = Some db1 →
  handleSendMessage env session st db
  = (mkChatRoom (user st) (profile st) (messages st) []
                (socket_emit_if_connected (messageData env u st) (socket st)),
     enforce_max_messages env session db1).
Proof.
  intros Hu Hblank Hok.
  by rewrite (handleSendMessage_unfold _ _ _ _ _ Hu Hblank), Hok.
Qed.

End send_facts.

(** ** The ordered read and [loadMessages] *)

Section read_facts.
Import Store.

#[global] Instance created_le_total : Total created_le.
Proof. intros a b. unfold created_le. lia. Qed.

#[global] Instance created_le_trans : Transitive created_le.
Proof. intros a b c. unfold created_le. lia. Qed.

Lemma select_ordered_Permutation s db :
  select_ordered s db ≡ₚ filter (λ m, can_select s m) (messages db).
Proof. apply merge_sort_Permutation. Qed.

Lemma select_ordered_StronglySorted s db :
  StronglySorted created_le (select_ordered s db).
Proof. apply StronglySorted_merge_sort; apply _. Qed.

Lemma select_ordered_authenticated uid db :
  select_ordered (authenticated uid) db ≡ₚ messages db.
Proof.
  rewrite select_ordered_Permutation.
  induction (messages db) as [|m ms IH]; [done|].
  rewrite filter_cons_True by done. by f_equiv.
Qed.

(** C4, as amended. The hydration read returns the first 100 rows of the
    ascending order by creation time, that is the 100 oldest messages the
    session can read: the result is ascending, it is a prefix of the
    ordered table, and every row left out is at least as recent as every
    row returned.  It is the most recent 100 when at most 100 messages
    are readable, and, message ids being unique as the primary key makes
    them, only then. *)
Theorem C4_loadMessages_reads_the_first_100_ascending session db :
  Client.loadMessages_query true session db
  = Some (take 100 (select_ordered session db))
  ∧ Sorted created_le (take 100 (select_ordered session db))
  ∧ select_ordered session db ≡ₚ filter (λ m, can_select session m) (messages db)
  ∧ (∀ m m', m ∈ take 100 (select_ordered session db) →
             m' ∈ drop 100 (select_ordered session db) →
             created_le m m')
  ∧ (length (select_ordered session db) ≤ 100 →
     take 100 (select_ordered session db) = most_recent session 100 db)
  ∧ (NoDup (Row.id <$> messages db) →
     take 100 (select_ordered session db) = most_recent session 100 db →
     length (select_ordered session db) ≤ 100).
Proof.
  pose proof (select_ordered_StronglySorted session db) as Hsorted.
  rewrite <-(take_drop 100 (select_ordered session db)) in Hsorted.
  split_and!.
  - reflexivity.
  - apply StronglySorted_Sorted. by eapply StronglySorted_app_1_l.
  - apply select_ordered_Permutation.
  - intros m m'. by apply StronglySorted_app_1_elem_of.
  - intros Hle. unfold most_recent. simpl.
    replace (length (select_ordered session db) - 100) with 0 by lia.
    by rewrite take_ge, drop_0.
  - intros Hids Heq. unfold most_recent in Heq. simpl in Heq.
    destruct (decide (length (select_ordered session db) ≤ 100)) as [|Hgt]; [done|].
    exfalso.
    assert (NoDup (select_ordered session db)) as Hnd.
    { rewrite select_ordered_Permutation.
      apply NoDup_filter. by eapply NoDup_fmap_1. }
    destruct (lookup_lt_is_Some_2 (select_ordered session db) 0) as [m Hm]; [lia|].
    assert (select_ordered session db
              !! (length (select_ordered session db) - 100) = Some m) as Hm'.
    { rewrite <-(Nat.add_0_r (length (select_ordered session db) - 100)).
      rewrite <-lookup_drop, <-Heq. rewrite lookup_take_lt by lia. done. }
    pose proof (NoDup_lookup _ _ _ _ Hnd Hm Hm'). lia.
Qed.

(** With three readable messages the read returns all of them, oldest
    first. *)
Lemma C4_short_history_witness :
  length (select_ordered (authenticated "A") (bobs_table 3)) ≤ 100
  ∧ Client.loadMessages_query true (authenticated "A") (bobs_table 3)
    = Some [bobs_row 1; bobs_row 2; bobs_row 3]
  ∧ take 100 (select_ordered (authenticated "A") (bobs_table 3))
    = most_recent (authenticated "A") 100 (bobs_table 3).
Proof.
  assert (length (select_ordered (authenticated "A") (bobs_table 3)) ≤ 100)
    as Hle by (vm_compute; lia).
  destruct (C4_loadMessages_reads_the_first_100_ascending
              (authenticated "A") (bobs_table 3)) as (Hq & _ & _ & _ & Hrecent & _).
  split; [exact Hle|]. split; [exact Hq | exact (Hrecent Hle)].
Defined.

(** C4 as the specification states it does not hold: with 101 messages
    in the table the read returns messages 1 to 100, so the newest one is
    missing and the oldest one is there; the most recent 100 are the
    messages 2 to 101. *)
Lemma C4_counterexample_newest_message_not_loaded :
  ∃ data,
    Client.loadMessages_query true (authenticated "A") (bobs_table 101) = Some data
    ∧ data ≠ most_recent (authenticated "A") 100 (bobs_table 101)
    ∧ Row.id <$> data = pretty <$> seq 1 100
    ∧ Row.id <$> most_recent (authenticated "A") 100 (bobs_table 101)
      = pretty <$> seq 2 100.
Proof.
  eexists. split; [reflexivity|].
  assert (Hdata : Row.id <$> take 100 (select_ordered (authenticated "A") (bobs_table 101))
                  = pretty <$> seq 1 100) by (vm_compute; reflexivity).
  assert (Hrecent : Row.id <$> most_recent (authenticated "A") 100 (bobs_table 101)
                    = pretty <$> seq 2 100) by (vm_compute; reflexivity).
  split_and!; [|exact Hdata | exact Hrecent].
  intros Heq. unfold select_ordered_limit in Heq.
  rewrite Heq, Hrecent in Hdata. vm_compute in Hdata. discriminate Hdata.
Qed.

End read_facts.

(** ** Age expiry *)

Section expiry_facts.
Import Store.

Lemma elem_of_delete_older_than_3_days s now ms m :
  m ∈ delete_older_than_3_days s now ms
  ↔ m ∈ ms ∧ ¬ (can_delete s m ∧ (Row.created_at m < now - three_days)%Z).
Proof. unfold delete_older_than_3_days. rewrite list_elem_of_filter. tauto. Qed.

(** The [SECURITY DEFINER] functions leave no message older than three
    days. *)
Lemma delete_old_messages_expires_all now db m :
  m ∈ messages (delete_old_messages now db) →
  (now - three_days ≤ Row.created_at m)%Z.
Proof.
  unfold delete_old_messages. simpl.
  rewrite elem_of_delete_older_than_3_days. intros [_ Hkeep].
  destruct (decide (Row.created_at m < now - three_days)%Z); [|lia].
  exfalso. apply Hkeep. by split.
Qed.

Lemma cleanup_messages_expires_all now db m :
  m ∈ messages (cleanup_messages now db).2 →
  (now - three_days ≤ Row.created_at m)%Z.
Proof. apply (delete_old_messages_expires_all now db m). Qed.

(** The trigger leaves no message older than three days that the
    inserting role may delete, and keeps every other row. *)
Lemma auto_delete_old_messages_keeps invoker now ms m :
  m ∈ auto_delete_old_messages invoker now ms
  ↔ m ∈ ms ∧ (can_delete invoker m → (now - three_days ≤ Row.created_at m)%Z).
Proof.
  unfold auto_delete_old_messages. rewrite elem_of_delete_older_than_3_days.
  split; intros [Hin Hkeep]; (split; [done|]).
  - intros Hdel. destruct (decide (Row.created_at m < now - three_days)%Z); [|lia].
    exfalso. apply Hkeep. by split.
  - intros [Hdel Hold]. specialize (Hkeep Hdel). lia.
Qed.

(** C9 at a failing input.  The table holds one message of Bob created
    at time 1.  More than three days later Alice inserts a message; the
    trigger fires as Alice, the delete policy hides Bob's row from its
    [DELETE], and Bob's message is still in the table and in Alice's next
    read.  The [SECURITY DEFINER] function [delete_old_messages] removes
    it. *)
Theorem C9_trigger_keeps_expired_messages_of_other_authors :
  let now := (three_days + 1000)%Z in
  let new := Row.mk "new" "A" "Alice" None [104; 105]%N now in
  (Row.created_at (bobs_row 1) < now - three_days)%Z
  ∧ insert (authenticated "A") now new (bobs_table 1)
    = Some (mk ["A"; "B"] [bobs_row 1; new])
  ∧ select_ordered (authenticated "A") (mk ["A"; "B"] [bobs_row 1; new])
    = [bobs_row 1; new]
  ∧ delete_old_messages now (mk ["A"; "B"] [bobs_row 1; new])
    = mk ["A"; "B"] [new].
Proof. split_and!; [done | reflexivity | reflexivity | reflexivity]. Qed.

End expiry_facts.

(** ** The count-based clean-up *)

Section cleanup_facts.
Import Store Client.

Lemma filter_all {A} (P : A → Prop) `{∀ x, Decision (P x)} (l : list A) :
  (∀ x, x ∈ l → P x) → filter P l = l.
Proof.
  induction l as [|x l IH]; intros HP; [done|].
  rewrite filter_cons_True by (apply HP; by left).
  f_equal. apply IH. intros y Hy. apply HP. by right.
Qed.

Lemma filter_none {A} (P : A → Prop) `{∀ x, Decision (P x)} (l : list A) :
  (∀ x, x ∈ l → ¬ P x) → filter P l = [].
Proof.
  induction l as [|x l IH]; intros HP; [done|].
  rewrite filter_cons_False by (apply HP; by left).
  apply IH. intros y Hy. apply HP. by right.
Qed.

(** What the clean-up does to the table when its two requests reach the
    database: of the [length - 50] oldest rows it read, the ones the
    session may delete are removed; all other rows stay. *)
Lemma enforce_max_messages_removes env session db :
  select_reaches env = true →
  delete_reaches env = true →
  Store.messages (enforce_max_messages env session db)
  = filter (λ m, ¬ (can_delete session m
                    ∧ Row.id m ∈ Row.id <$> take (length (select_ordered session db)
                                                  - max_messages)
                                                 (select_ordered session db)))
           (Store.messages db).
Proof.
  intros Hsel Hdel. unfold enforce_max_messages. rewrite Hsel, Hdel.
  case_bool_decide as Hlen.
  - case_bool_decide as Hpos; [done|].
    rewrite length_fmap, length_take in Hpos. lia.
  - replace (length (select_ordered session db) - max_messages) with 0 by lia.
    symmetry. apply filter_all. intros m _ [_ Hin]. by apply elem_of_nil in Hin.
Qed.

(** A read or a delete that does not reach the database leaves the table
    as it is. *)
Lemma enforce_max_messages_unreachable env session db :
  select_reaches env = false ∨ delete_reaches env = false →
  enforce_max_messages env session db = db.
Proof.
  unfold enforce_max_messages. intros [-> | ->]; [done|].
  destruct (select_reaches env); [|done]. by repeat case_bool_decide.
Qed.

(** When the session may delete every row the clean-up selects (for
    instance when they are all its own), what remains is the most recent
    50 messages: at most 50 rows, each at least as recent as every row
    removed. *)
Lemma enforce_max_messages_when_deletable env uid db :
  select_reaches env = true →
  delete_reaches env = true →
  NoDup (Row.id <$> Store.messages db) →
  (∀ m, m ∈ take (length (select_ordered (authenticated uid) db) - max_messages)
                 (select_ordered (authenticated uid) db) →
        can_delete (authenticated uid) m) →
  Store.messages (enforce_max_messages env (authenticated uid) db)
    ≡ₚ most_recent (authenticated uid) max_messages db
  ∧ length (Store.messages (enforce_max_messages env (authenticated uid) db))
    = length (Store.messages db) `min` max_messages
  ∧ (∀ kept gone,
       kept ∈ Store.messages (enforce_max_messages env (authenticated uid) db) →
       gone ∈ Store.messages db →
       gone ∉ Store.messages (enforce_max_messages env (authenticated uid) db) →
       created_le gone kept).
Proof.
  intros Hsel Hdel Hnd Hmay.
  set (s := authenticated uid) in *.
  set (all := select_ordered s db) in *.
  set (k := length all - max_messages) in *.
  assert (Hperm : all ≡ₚ Store.messages db) by apply select_ordered_authenticated.
  assert (Hsplit : all = take k all ++ drop k all) by by rewrite take_drop.
  assert (Hnd_all : NoDup (Row.id <$> all)) by by rewrite Hperm.
  rewrite Hsplit, fmap_app in Hnd_all.
  apply NoDup_app in Hnd_all as (_ & Hdisj & _).
  assert (Hres : Store.messages (enforce_max_messages env s db) ≡ₚ drop k all).
  { rewrite (enforce_max_messages_removes env s db Hsel Hdel).
    fold all. fold k. set (ids := Row.id <$> take k all) in *.
    set (P := λ m : Row.t, ¬ (can_delete s m ∧ Row.id m ∈ ids)).
    transitivity (filter P all); [by rewrite Hperm|].
    assert (filter P all = filter P (take k all) ++ filter P (drop k all)) as ->
      by by rewrite <-filter_app, take_drop.
    rewrite filter_none, filter_all; [done | |].
    - intros m Hm [_ Hin]. eapply Hdisj; [exact Hin|].
      apply list_elem_of_fmap. by exists m.
    - intros m Hm Hkeep. apply Hkeep. split; [by apply Hmay|].
      apply list_elem_of_fmap. by exists m. }
  split_and!.
  - done.
  - rewrite Hres, length_drop, <-Hperm. unfold k. lia.
  - intros kept gone Hkept Hgone Hremoved.
    rewrite Hres in Hkept, Hremoved. rewrite <-Hperm, Hsplit in Hgone.
    apply elem_of_app in Hgone as [Hgone|Hgone]; [|done].
    pose proof (select_ordered_StronglySorted s db) as Hsorted.
    fold all in Hsorted. rewrite Hsplit in Hsorted.
    by eapply StronglySorted_app_1_elem_of.
Qed.

(** C2 at a failing input.  The table holds Bob's messages 1 to 50.
    Alice sends "hi": her insert succeeds, the ordered read returns 51
    rows, and the clean-up asks to delete the oldest one, Bob's message
    1.  The delete policy admits only Alice's own rows, so nothing is
    deleted and 51 messages remain.  Had the 50 messages been Alice's,
    message 1 would have been deleted and 50 would remain. *)
Theorem C2_cleanup_leaves_51_messages_when_the_oldest_is_anothers :
  let after_bob := (handleSendMessage (env_at 51 100) (authenticated "A")
                                      (alice_room [104; 105]%N) (bobs_table 50)).2 in
  let after_alice := (handleSendMessage (env_at 51 100) (authenticated "A")
                                        (alice_room [104; 105]%N) (alices_table 50)).2 in
  Row.id <$> Store.messages after_bob = (pretty <$> seq 1 50) ++ ["new"]
  ∧ length (Store.messages after_bob) = 51
  ∧ Row.id <$> Store.messages after_alice = (pretty <$> seq 2 49) ++ ["new"]
  ∧ length (Store.messages after_alice) = 50.
Proof. split_and!; vm_compute; reflexivity. Qed.

(** The scenario of the specification: 60 messages in the table.  The
    clean-up run by Alice removes the 10 oldest when they are hers and
    nothing when they are Bob's. *)
Lemma cleanup_of_60_messages :
  enforce_max_messages (env_at 61 100) (authenticated "A") (bobs_table 60)
  = bobs_table 60
  ∧ Row.id <$> Store.messages (enforce_max_messages (env_at 61 100) (authenticated "A")
                                              (alices_table 60))
    = pretty <$> seq 11 50.
Proof. split; vm_compute; reflexivity. Qed.

End cleanup_facts.

(** * Further properties of the modelled code *)

(** ** The registry as a map *)

Section registry_laws.
Import Registry.
Implicit Types (r : registry) (s : Relay).

Lemma set_fresh {V} (m : JsMap.t V) k v :
  JsMap.get k m = None → JsMap.set k v m = m ++ [(k, v)].
Proof.
  induction m as [|[k' v'] m IH]; simpl; [done|].
  case_bool_decide; [done|]. intros Hnone. by rewrite IH.
Qed.

Lemma delete_snoc_fresh {V} (m : JsMap.t V) k v :
  JsMap.get k m = None → JsMap.delete k (m ++ [(k, v)]) = m.
Proof.
  induction m as [|[k' v'] m IH]; simpl.
  - by rewrite bool_decide_eq_true_2.
  - case_bool_decide; [done|]. intros Hnone. by rewrite IH.
Qed.

(** X1. A connected socket without an entry that sends [user:join] is
    appended at the end of the registry, whatever its payload; when the
    payload is [undefined] or [null] the handler throws right after
    that, so nobody is sent anything.  The disconnect of the socket then
    restores the registry exactly as it was, order included, when the
    payload is truthy; when the payload is falsy (such as 0, [false],
    the empty string or [null]) the disconnect leaves the registry as
    the join made it, so the entry stays behind although its socket is
    gone. *)
Theorem join_then_leave_restores_only_after_a_truthy_payload s id u :
  id ∈ connections s →
  lookup id (connectedUsers s) = None →
  connectedUsers (step s id (user_join u)).1 = connectedUsers s ++ [(id, u)]
  ∧ onlineUsers (connectedUsers (step s id (user_join u)).1)
    = onlineUsers (connectedUsers s) ++ [u]
  ∧ (Js.nullish u = true → (step s id (user_join u)).2 = [])
  ∧ connectedUsers (step (step s id (user_join u)).1 id disconnect).1
    = (if Js.truthy u then connectedUsers s else connectedUsers s ++ [(id, u)])
  ∧ id ∉ connections (step (step s id (user_join u)).1 id disconnect).1.
Proof.
  unfold lookup. intros Hin Hnone.
  assert (Hreg : connectedUsers (step s id (user_join u)).1
                 = connectedUsers s ++ [(id, u)]).
  { rewrite connectedUsers_step, bool_decide_eq_true_2 by done.
    by apply set_fresh. }
  assert (Hconn : connections (step s id (user_join u)).1 = connections s)
    by by rewrite connections_step.
  split_and!; [done | | | |].
  - rewrite Hreg. unfold onlineUsers, JsMap.values. by rewrite fmap_app.
  - intros Hnull. rewrite step_connected by done. unfold run_handler.
    by rewrite on_user_join_abrupt.
  - rewrite connectedUsers_step, Hconn, bool_decide_eq_true_2 by done.
    rewrite Hreg. unfold unregister, get.
    assert (JsMap.get id (connectedUsers s ++ [(id, u)]) = Some u) as ->.
    { rewrite <-(set_fresh _ _ _ Hnone). apply get_set_eq. }
    simpl. destruct (Js.truthy u); [by apply delete_snoc_fresh | done].
  - rewrite connections_step, Hconn, elem_of_filter_ne. by intros [_ ?].
Qed.

Lemma join_then_leave_witness :
  "A" ∈ connections three_clients
  ∧ lookup "A" (connectedUsers three_clients) = None
  ∧ connectedUsers (step three_clients "A" (user_join ann)).1 = [("A", ann)]
  ∧ connectedUsers
      (step (step three_clients "A" (user_join ann)).1 "A" disconnect).1 = [].
Proof.
  assert ("A" ∈ connections three_clients) as Hin by (vm_compute; by left).
  split; [exact Hin|]. split; [reflexivity|].
  destruct (join_then_leave_restores_only_after_a_truthy_payload
              three_clients "A" ann Hin eq_refl) as (Hjoin & _ & _ & Hleave & _).
  split; [exact Hjoin | exact Hleave].
Defined.



End registry_laws.

(** ** The relay as a whole *)

Section relay_invariants.
Implicit Types (s : Relay).

Lemma length_filter_values {V} (P : V → Prop) `{∀ v, Decision (P v)} (m : JsMap.t V) :
  length (filter P (JsMap.values m))
  = length (JsMap.keys (filter (λ kv, P kv.2) m)).
Proof.
  unfold JsMap.values, JsMap.keys.
  induction m as [|[k v] m IH]; [done|].
  change (snd <$> (k, v) :: m) with (v :: (snd <$> m)).
  destruct (decide (P v)) as [Hv|Hv].
  - rewrite filter_cons_True by done.
    rewrite (filter_cons_True (λ kv : string * V, P kv.2) (k, v) m Hv).
    simpl. by f_equal.
  - rewrite filter_cons_False by done.
    by rewrite (filter_cons_False (λ kv : string * V, P kv.2) (k, v) m Hv).
Qed.

(** X3. In every state the relay can reach, connection ids are distinct,
    no connection has two registry entries, and every registry entry
    that holds a truthy payload belongs to a socket that is still
    connected; so the online list never shows more truthy payloads than
    there are connections. *)
Theorem relay_truthy_entries_belong_to_live_connections s :
  reachable s →
  NoDup (connections s)
  ∧ NoDup (JsMap.keys (connectedUsers s))
  ∧ (∀ id u, (id, u) ∈ connectedUsers s → Js.truthy u = true → id ∈ connections s)
  ∧ length (filter (λ u, Js.truthy u = true)
                   (Registry.onlineUsers (connectedUsers s)))
    ≤ length (connections s).
Proof.
  intros (Hc & Hk & Hlive)%reachable_invariant.
  assert (Hentries : ∀ id u, (id, u) ∈ connectedUsers s →
                             Js.truthy u = true → id ∈ connections s).
  { intros id u Hin. apply Hlive. by apply elem_of_get. }
  split_and!; [done | done | done |].
  unfold Registry.onlineUsers. rewrite length_filter_values.
  apply submseteq_length, NoDup_submseteq.
  - eapply sublist_NoDup; [exact Hk|].
    apply (fmap_sublist fst), sublist_filter.
  - intros id ([id' u] & -> & [Ht Hin]%list_elem_of_filter)%list_elem_of_fmap.
    by eapply Hentries.
Qed.

Lemma relay_truthy_entries_witness :
  reachable ann_joined
  ∧ length (filter (λ u, Js.truthy u = true)
                   (Registry.onlineUsers (connectedUsers ann_joined)))
    ≤ length (connections ann_joined).
Proof.
  split; [exact ann_joined_reachable|].
  apply (relay_truthy_entries_belong_to_live_connections ann_joined).
  exact ann_joined_reachable.
Defined.

(** X4. Whatever the state and the event, the relay only ever addresses
    sockets that are connected once the event has been handled; in
    particular a socket that has disconnected receives nothing, not even
    its own [user:left]. *)
Theorem relay_delivers_only_to_connected_sockets s id ev c e :
  (c, e) ∈ (step s id ev).2 → c ∈ connections (step s id ev).1.
Proof.
  destruct (decide (id ∈ connections s)) as [Hin|Hin].
  - rewrite step_connected by done. unfold run_handler.
    destruct ev; simpl.
    + by intros ?%elem_of_nil.
    + destruct (Js.nullish userData) eqn:Hpayload.
      * rewrite on_user_join_abrupt by done. by intros ?%elem_of_nil.
      * rewrite on_user_join_normal by done.
        unfold deliveries. simpl. rewrite ?app_nil_r.
        intros [Hall|Hself]%elem_of_app.
        -- apply list_elem_of_fmap in Hall as (c' & [= -> ->] & Hc'). done.
        -- apply list_elem_of_singleton in Hself as [= -> ->]. done.
    + unfold deliveries. simpl. rewrite app_nil_r.
      intros (c' & [= -> ->] & Hc')%list_elem_of_fmap. done.
    + unfold deliveries. simpl. rewrite app_nil_r.
      intros (c' & [= -> ->] & Hc')%list_elem_of_fmap.
      by apply elem_of_filter_ne in Hc' as [? _].
    + unfold deliveries. simpl. rewrite app_nil_r.
      intros (c' & [= -> ->] & Hc')%list_elem_of_fmap.
      by apply elem_of_filter_ne in Hc' as [? _].
    + destruct (Js.truthy (Registry.get id (connectedUsers s))) eqn:Hlook.
      * rewrite (on_disconnect_truthy _ _ Hlook). unfold deliveries. simpl.
        rewrite app_nil_r.
        intros (c' & [= -> ->] & Hc')%list_elem_of_fmap. done.
      * rewrite (on_disconnect_falsy _ _ Hlook). simpl.
        by intros ?%elem_of_nil.
  - rewrite step_not_connected by done.
    destruct ev; simpl; by intros ?%elem_of_nil.
Qed.

Lemma relay_delivers_witness :
  ("B", message_received hi) ∈ (step three_clients "A" (message_send hi)).2
  ∧ "B" ∈ connections (step three_clients "A" (message_send hi)).1.
Proof.
  assert (("B", message_received hi)
            ∈ (step three_clients "A" (message_send hi)).2) as Hin.
  { vm_compute. right. left. }
  split; [exact Hin|].
  exact (relay_delivers_only_to_connected_sockets
           three_clients "A" (message_send hi) "B" (message_received hi) Hin).
Defined.

End relay_invariants.

(** ** Expiry and the [SECURITY DEFINER] clean-up functions *)

Section expiry_laws.
Import Store.

(** X5. Whoever runs it, the three-day delete only removes rows: what
    remains is a sub-sequence of the table in the same order, every
    message not older than three days is kept, and so is every message
    the executing role may not delete. *)
Theorem expiry_never_deletes_fresh_or_foreign_messages s now ms :
  delete_older_than_3_days s now ms `sublist_of` ms
  ∧ (∀ m, m ∈ ms → (now - three_days ≤ Row.created_at m)%Z →
          m ∈ delete_older_than_3_days s now ms)
  ∧ (∀ m, m ∈ ms → can_delete s m = false →
          m ∈ delete_older_than_3_days s now ms).
Proof.
  split_and!.
  - apply sublist_filter.
  - intros m Hin Hfresh. apply elem_of_delete_older_than_3_days.
    split; [done|]. intros [_ Hold]. lia.
  - intros m Hin Hforeign. apply elem_of_delete_older_than_3_days.
    split; [done|]. intros [Hdel _]. by rewrite Hforeign in Hdel.
Qed.

Lemma delete_older_definer now ms :
  delete_older_than_3_days definer now ms
  = filter (λ m, ¬ (Row.created_at m < now - three_days)%Z) ms.
Proof.
  unfold delete_older_than_3_days. apply list_filter_iff. intros m.
  unfold can_delete. simpl. split; [|tauto].
  intros Hkeep Hold. apply Hkeep. by split.
Qed.

(** X6. [cleanup_messages()] returns the number of messages older than
    three days, which is the number of rows it removes; the [users] table
    is untouched; and a second call at the same time removes nothing and
    returns 0. *)
Theorem cleanup_messages_counts_what_it_deletes now db :
  (cleanup_messages now db).1
  = length (filter (λ m, (Row.created_at m < now - three_days)%Z) (messages db))
  ∧ (cleanup_messages now db).1 + length (messages (cleanup_messages now db).2)
    = length (messages db)
  ∧ users (cleanup_messages now db).2 = users db
  ∧ cleanup_messages now (cleanup_messages now db).2
    = (0, (cleanup_messages now db).2).
Proof.
  unfold cleanup_messages. simpl. rewrite !delete_older_definer.
  pose proof (filter_app_complement
                (λ m, (Row.created_at m < now - three_days)%Z) (messages db)) as Hperm.
  apply Permutation_length in Hperm. rewrite length_app in Hperm.
  cbv beta in Hperm.
  assert (Hidem :
    filter (λ m, ¬ (Row.created_at m < now - three_days)%Z)
           (filter (λ m, ¬ (Row.created_at m < now - three_days)%Z) (messages db))
    = filter (λ m, ¬ (Row.created_at m < now - three_days)%Z) (messages db)).
  { apply filter_all. by intros m [? _]%list_elem_of_filter. }
  split_and!; [lia | lia | done |].
  rewrite Hidem. f_equal. lia.
Qed.

End expiry_laws.

(** ** Sending: what reaches the table and the socket *)

Section send_laws.
Import Store Client.

Lemma insert_Some s now m db db' :
  insert s now m db = Some db' →
  can_insert s m
  ∧ (Row.id m ∉ Row.id <$> Store.messages db)
  ∧ Row.user_id m ∈ users db
  ∧ db' = Store.mk (users db)
                   (auto_delete_old_messages s now (Store.messages db ++ [m])).
Proof.
  unfold insert. case_bool_decide as H; [|done].
  intros [= <-]. by destruct H as (? & ? & ?).
Qed.

Lemma enforce_max_messages_sublist env session db :
  users (enforce_max_messages env session db) = users db
  ∧ Store.messages (enforce_max_messages env session db)
      `sublist_of` Store.messages db.
Proof.
  unfold enforce_max_messages.
  repeat (case_match; try done); simpl.
  split; [done | apply sublist_filter].
Qed.

(** Every row in the table after a send was there before or is the row
    built from [messageData]. *)
Lemma handleSendMessage_rows env session st db r :
  r ∈ Store.messages (handleSendMessage env session st db).2 →
  r ∈ Store.messages db
  ∨ ∃ u, user st = Some u
         ∧ JsString.blank (newMessage st) = false
         ∧ r = Message.to_row (messageData env u st).
Proof.
  unfold handleSendMessage. destruct (user st) as [u|] eqn:Hu; [|by left].
  destruct (JsString.truthy (JsString.trim (newMessage st))) eqn:Htruthy;
    simpl; [|by left].
  assert (JsString.blank (newMessage st) = false) as Hblank.
  { destruct (JsString.blank (newMessage st)) eqn:E; [|done].
    apply trim_falsy_iff_blank in E. congruence. }
  destruct (supabase_insert _ _ _ _) as [db1|] eqn:Hins; simpl; [|by left].
  unfold supabase_insert in Hins. destruct (insert_reaches env); [|done].
  apply insert_Some in Hins as (_ & _ & _ & ->).
  intros Hr.
  apply (sublist_subseteq _ _ (proj2 (enforce_max_messages_sublist _ _ _))) in Hr.
  simpl in Hr. apply auto_delete_old_messages_keeps in Hr as [Hr _].
  apply elem_of_app in Hr as [Hr|Hr%list_elem_of_singleton]; [by left|].
  right. by exists u.
Qed.

(** X7. [handleSendMessage] keeps the primary key of [messages] unique
    and never touches the [users] table, whatever the session, the state
    and the outcome of its requests. *)
Theorem send_preserves_the_primary_key env session st db :
  NoDup (Row.id <$> Store.messages db) →
  NoDup (Row.id <$> Store.messages (handleSendMessage env session st db).2)
  ∧ users (handleSendMessage env session st db).2 = users db.
Proof.
  intros Hnd. unfold handleSendMessage.
  destruct (user st) as [u|]; [|done].
  destruct (negb _); [done|].
  destruct (supabase_insert _ _ _ _) as [db1|] eqn:Hins; simpl; [|done].
  unfold supabase_insert in Hins. destruct (insert_reaches env); [|done].
  apply insert_Some in Hins as (_ & Hfresh & _ & ->).
  destruct (enforce_max_messages_sublist env session
    (Store.mk (users db)
       (auto_delete_old_messages session (server_now env)
          (Store.messages db ++ [Message.to_row (messageData env u st)]))))
    as [Husers Hsub].
  split; [|done].
  eapply sublist_NoDup; [|exact (fmap_sublist Row.id _ _ Hsub)]. simpl.
  eapply sublist_NoDup; [|exact (fmap_sublist Row.id _ _ (sublist_filter _ _))].
  rewrite fmap_app. apply NoDup_app. split_and!; [done | | apply NoDup_singleton].
  intros x Hx ->%list_elem_of_singleton. done.
Qed.

Lemma send_preserves_the_primary_key_witness :
  NoDup (Row.id <$> Store.messages (bobs_table 3))
  ∧ NoDup (Row.id <$> Store.messages
             (handleSendMessage (env_at 51 100) (authenticated "A")
                                (alice_room [104; 105]%N) (bobs_table 3)).2).
Proof.
  assert (NoDup (Row.id <$> Store.messages (bobs_table 3))) as Hnd.
  { apply (bool_decide_unpack _). vm_compute. exact I. }
  split; [exact Hnd|].
  apply (send_preserves_the_primary_key (env_at 51 100) (authenticated "A")
           (alice_room [104; 105]%N) (bobs_table 3) Hnd).
Defined.

(** X8. When the clock of the client is more than three days behind the
    server's, a send still succeeds: the insert is accepted, the message
    is emitted on the socket and the draft is cleared; but the trigger
    fired by the insert deletes the new row at once, so the message is
    not in the table afterwards. *)
Theorem send_with_stale_clock_is_broadcast_but_not_stored env st db u sock :
  user st = Some u →
  JsString.blank (newMessage st) = false →
  insert_reaches env = true →
  (randomUUID env ∉ Row.id <$> Store.messages db) →
  User.id u ∈ users db →
  (now_created_at env < server_now env - three_days)%Z →
  socket st = Some sock →
  connected sock = true →
  emitted_by st (handleSendMessage env (authenticated (User.id u)) st db).1
  = [messageData env u st]
  ∧ newMessage (handleSendMessage env (authenticated (User.id u)) st db).1 = []
  ∧ randomUUID env
    ∉ Row.id <$> Store.messages (handleSendMessage env (authenticated (User.id u)) st db).2.
Proof.
  intros Hu Hblank Hreach Hfresh Hknown Hstale Hsock Hconn.
  set (s := authenticated (User.id u)).
  set (row := Message.to_row (messageData env u st)).
  assert (Hins : supabase_insert env s row db
    = Some (Store.mk (users db)
              (auto_delete_old_messages s (server_now env) (Store.messages db ++ [row])))).
  { unfold supabase_insert, insert. rewrite Hreach.
    rewrite bool_decide_eq_true_2; [done|].
    split_and!; [|done|done].
    unfold can_insert, insert_policy, s. simpl.
    by rewrite bool_decide_eq_true_2. }
  rewrite (handleSendMessage_after_insert _ _ _ _ _ _ Hu Hblank Hins). simpl.
  split_and!.
  - unfold emitted_by. simpl. rewrite Hsock. simpl. rewrite Hconn. simpl.
    by rewrite drop_app_length.
  - done.
  - intros (r & Hid & Hr)%list_elem_of_fmap.
    apply (sublist_subseteq _ _ (proj2 (enforce_max_messages_sublist _ _ _))) in Hr.
    simpl in Hr. apply auto_delete_old_messages_keeps in Hr as [Hr Hkeep].
    apply elem_of_app in Hr as [Hr|Hr%list_elem_of_singleton].
    + apply Hfresh. rewrite Hid. apply list_elem_of_fmap. by exists r.
    + subst r. unfold row in Hkeep. simpl in Hkeep.
      assert (can_delete s (Message.to_row (messageData env u st))) as Hdel.
      { unfold can_delete, delete_policy, s. simpl.
        by rewrite bool_decide_eq_true_2. }
      specialize (Hkeep Hdel). lia.
Qed.

Lemma send_with_stale_clock_witness :
  user (alice_room [104; 105]%N) = Some alice
  ∧ (now_created_at (env_at 51 (three_days + 1000)) 
     < server_now (env_at 51 (three_days + 1000)) - three_days)%Z
  ∧ emitted_by (alice_room [104; 105]%N)
      (handleSendMessage (env_at 51 (three_days + 1000)) (authenticated "A")
                         (alice_room [104; 105]%N) (alices_table 3)).1
    = [messageData (env_at 51 (three_days + 1000)) alice (alice_room [104; 105]%N)]
  ∧ "new" ∉ Row.id <$> Store.messages
      (handleSendMessage (env_at 51 (three_days + 1000)) (authenticated "A")
                         (alice_room [104; 105]%N) (alices_table 3)).2.
Proof.
  split; [reflexivity|]. split; [reflexivity|].
  destruct (send_with_stale_clock_is_broadcast_but_not_stored
              (env_at 51 (three_days + 1000)) (alice_room [104; 105]%N)
              (alices_table 3) alice (mkSocket true []))
    as (Hemit & _ & Habsent);
    try reflexivity.
  - apply (bool_decide_unpack _). vm_compute. exact I.
  - apply (bool_decide_unpack _). vm_compute. exact I.
  - split; [exact Hemit | exact Habsent].
Defined.

(** X9. When the database session is not the signed-in user's (it is
    anonymous, or belongs to another user), [handleSendMessage] changes
    nothing: the insert policy rejects the row, so nothing is stored,
    nothing is emitted and the draft stays. *)
Theorem send_with_foreign_session_changes_nothing env session st db u :
  user st = Some u →
  bypasses_rls session = false →
  auth_uid session ≠ Some (User.id u) →
  handleSendMessage env session st db = (st, db).
Proof.
  intros Hu Hrls Hforeign. unfold handleSendMessage. rewrite Hu.
  destruct (negb _); [done|].
  assert (supabase_insert env session (Message.to_row (messageData env u st)) db = None)
    as ->; [|done].
  unfold supabase_insert, insert. destruct (insert_reaches env); [|done].
  rewrite bool_decide_eq_false_2; [done|].
  intros (Hcan & _). unfold can_insert, insert_policy in Hcan.
  rewrite Hrls in Hcan. simpl in Hcan.
  by apply bool_decide_unpack in Hcan.
Qed.

Lemma send_with_foreign_session_witness :
  user (alice_room [104; 105]%N) = Some alice
  ∧ auth_uid (authenticated "B") ≠ Some (User.id alice)
  ∧ handleSendMessage (env_at 51 100) (authenticated "B")
                      (alice_room [104; 105]%N) (bobs_table 3)
    = (alice_room [104; 105]%N, bobs_table 3).
Proof.
  assert (auth_uid (authenticated "B") ≠ Some (User.id alice)) as Hne
    by discriminate.
  split; [reflexivity|]. split; [exact Hne|].
  apply (send_with_foreign_session_changes_nothing
           (env_at 51 100) (authenticated "B") (alice_room [104; 105]%N)
           (bobs_table 3) alice); [reflexivity | reflexivity | exact Hne].
Defined.

(** X10. An anonymous session can do nothing with [messages]: it reads
    no row, its inserts fail, its deletes and its clean-up remove
    nothing, and [loadMessages] leaves it with an empty message list. *)
Theorem anonymous_session_reads_and_writes_nothing env now m ids db st :
  select_ordered anon db = []
  ∧ insert anon now m db = None
  ∧ delete_in anon ids db = db
  ∧ enforce_max_messages env anon db = db
  ∧ Client.messages (loadMessages true anon db st) = [].
Proof.
  assert (Hsel : select_ordered anon db = []).
  { unfold select_ordered. by rewrite filter_none by (intros x _ H; exact H). }
  assert (Hdel : ∀ ids', delete_in anon ids' db = db).
  { intros ids'. unfold delete_in. destruct db as [us ms]. simpl. f_equal.
    apply filter_all. intros x _ [Hcan _]. done. }
  split_and!; [done | | done | |].
  - unfold insert. rewrite bool_decide_eq_false_2; [done|]. by intros [? _].
  - unfold enforce_max_messages. rewrite Hsel. simpl.
    by destruct (select_reaches env).
  - unfold loadMessages, loadMessages_query, select_ordered_limit.
    by rewrite Hsel.
Qed.

(** X11. The count-based clean-up only removes rows.  Whatever happens
    to its requests, what remains is a sub-sequence of the table, the
    [users] table is untouched, every row the session may not delete is
    kept, every one of the 50 most recent readable rows is kept, and a
    table with at most 50 readable rows is left as it is. *)
Theorem cleanup_spares_recent_and_foreign_rows env session db :
  NoDup (Row.id <$> Store.messages db) →
  users (enforce_max_messages env session db) = users db
  ∧ Store.messages (enforce_max_messages env session db)
      `sublist_of` Store.messages db
  ∧ (∀ m, m ∈ Store.messages db → can_delete session m = false →
          m ∈ Store.messages (enforce_max_messages env session db))
  ∧ (∀ m, m ∈ most_recent session max_messages db →
          m ∈ Store.messages (enforce_max_messages env session db))
  ∧ (length (select_ordered session db) ≤ max_messages →
     enforce_max_messages env session db = db).
Proof.
  intros Hnd.
  destruct (enforce_max_messages_sublist env session db) as [Husers Hsub].
  set (all := select_ordered session db).
  set (k := length all - max_messages).
  assert (Hkept : ∀ m, m ∈ Store.messages db →
            ¬ (can_delete session m ∧ Row.id m ∈ Row.id <$> take k all) →
            m ∈ Store.messages (enforce_max_messages env session db)).
  { intros m Hin Hno.
    destruct (select_reaches env) eqn:Hsel, (delete_reaches env) eqn:Hdel.
    - rewrite (enforce_max_messages_removes env session db Hsel Hdel).
      apply list_elem_of_filter. by split.
    - rewrite enforce_max_messages_unreachable by by right. done.
    - rewrite enforce_max_messages_unreachable by by left. done.
    - rewrite enforce_max_messages_unreachable by by left. done. }
  split_and!; [done | done | | |].
  - intros m Hin Hforeign. apply Hkept; [done|].
    intros [Hdel _]. by rewrite Hforeign in Hdel.
  - intros m Hrecent. unfold most_recent in Hrecent. fold all k in Hrecent.
    assert (Hperm : all ≡ₚ filter (λ m, can_select session m) (Store.messages db))
      by apply select_ordered_Permutation.
    assert (Hnd_all : NoDup (Row.id <$> all)).
    { rewrite Hperm.
      eapply sublist_NoDup; [done|exact (fmap_sublist Row.id _ _ (sublist_filter _ _))]. }
    rewrite <-(take_drop k all), fmap_app in Hnd_all.
    apply NoDup_app in Hnd_all as (_ & Hdisj & _).
    apply Hkept.
    + assert (m ∈ all) as Hall.
      { rewrite <-(take_drop k all). apply elem_of_app. by right. }
      rewrite Hperm in Hall. by apply list_elem_of_filter in Hall as [_ ?].
    + intros [_ Hid]. eapply Hdisj; [exact Hid|].
      apply list_elem_of_fmap. by exists m.
  - intros Hle. unfold enforce_max_messages. fold all.
    destruct (select_reaches env); [|done].
    by rewrite bool_decide_eq_false_2 by lia.
Qed.

Lemma cleanup_spares_witness :
  NoDup (Row.id <$> Store.messages (bobs_table 60))
  ∧ Store.messages (enforce_max_messages (env_at 61 100) (authenticated "A")
                                         (bobs_table 60))
      `sublist_of` Store.messages (bobs_table 60).
Proof.
  assert (NoDup (Row.id <$> Store.messages (bobs_table 60))) as Hnd.
  { apply (bool_decide_unpack _). vm_compute. exact I. }
  split; [exact Hnd|].
  apply (cleanup_spares_recent_and_foreign_rows
           (env_at 61 100) (authenticated "A") (bobs_table 60) Hnd).
Defined.

End send_laws.

(** ** [trim] *)

Section trim_laws.
Import JsString.

Lemma trimStart_split s : ∃ l, s = l ++ trimStart s ∧ blank l = true.
Proof.
  induction s as [|c s (l & Hs & Hl)]; simpl.
  - by exists [].
  - destruct (is_white_space c) eqn:E.
    + exists (c :: l). simpl. rewrite E, Hl. split; [by f_equal | done].
    + by exists [].
Qed.

Lemma trimStart_head s c : head (trimStart s) = Some c → is_white_space c = false.
Proof.
  induction s as [|c' s IH]; simpl; [done|].
  destruct (is_white_space c') eqn:E; [done|]. simpl. by intros [= <-].
Qed.

Lemma trimStart_fixed s :
  (∀ c, head s = Some c → is_white_space c = false) → trimStart s = s.
Proof. destruct s as [|c s]; simpl; [done|]. intros H. by rewrite (H c). Qed.

Lemma trimEnd_split t : ∃ r, t = trimEnd t ++ r ∧ blank r = true.
Proof.
  unfold trimEnd. destruct (trimStart_split (reverse t)) as (l & Ht & Hl).
  exists (reverse l). split; [|by rewrite blank_reverse].
  rewrite <-reverse_app, <-Ht. by rewrite reverse_involutive.
Qed.

Lemma trimEnd_last t c : last (trimEnd t) = Some c → is_white_space c = false.
Proof. unfold trimEnd. rewrite last_reverse. apply trimStart_head. Qed.

Lemma trimEnd_fixed t :
  (∀ c, last t = Some c → is_white_space c = false) → trimEnd t = t.
Proof.
  intros H. unfold trimEnd. rewrite trimStart_fixed; [apply reverse_involutive|].
  intros c. rewrite head_reverse. apply H.
Qed.

Lemma trim_head s c : head (trim s) = Some c → is_white_space c = false.
Proof.
  destruct (trimEnd_split (trimStart s)) as (r & Ht & _).
  intros Hc. apply (trimStart_head s). rewrite Ht. fold (trim s).
  by destruct (trim s).
Qed.

Lemma trim_last s c : last (trim s) = Some c → is_white_space c = false.
Proof. apply trimEnd_last. Qed.

Lemma trim_idempotent s : trim (trim s) = trim s.
Proof.
  unfold trim at 1. rewrite (trimStart_fixed (trim s)) by apply trim_head.
  apply trimEnd_fixed, trim_last.
Qed.

(** X12. [trim] removes white space at both ends and nothing else: the
    string is a run of white space, then its trim, then a run of white
    space; the trim, when it is not empty, begins and ends with a code
    unit that is not white space; and trimming twice is trimming once. *)
Theorem trim_strips_exactly_the_surrounding_white_space s :
  (∃ l r, s = l ++ trim s ++ r ∧ blank l = true ∧ blank r = true)
  ∧ (∀ c, head (trim s) = Some c → is_white_space c = false)
  ∧ (∀ c, last (trim s) = Some c → is_white_space c = false)
  ∧ trim (trim s) = trim s.
Proof.
  destruct (trimStart_split s) as (l & Hs & Hl).
  destruct (trimEnd_split (trimStart s)) as (r & Ht & Hr).
  split_and!.
  - exists l, r. split_and!; [|done|done].
    rewrite Hs at 1. by rewrite Ht at 1.
  - apply trim_head.
  - apply trim_last.
  - apply trim_idempotent.
Qed.

End trim_laws.

Section body_laws.
Import Store Client.

(** X13. No blank body leaves [handleSendMessage]: every payload it
    emits on the socket and every row it adds to the table carries the
    trimmed draft, which is not empty and has no white space at either
    end. *)
Theorem send_never_stores_or_emits_a_blank_body env session st db :
  (∀ m, m ∈ emitted_by st (handleSendMessage env session st db).1 →
        Message.content m = JsString.trim (newMessage st)
        ∧ Message.content m ≠ []
        ∧ JsString.trim (Message.content m) = Message.content m)
  ∧ (∀ r, r ∈ Store.messages (handleSendMessage env session st db).2 →
          r ∈ Store.messages db
          ∨ (Row.content r = JsString.trim (newMessage st)
             ∧ Row.content r ≠ []
             ∧ JsString.trim (Row.content r) = Row.content r)).
Proof.
  assert (Htrim : JsString.blank (newMessage st) = false →
            JsString.trim (newMessage st) ≠ []
            ∧ JsString.trim (JsString.trim (newMessage st))
              = JsString.trim (newMessage st)).
  { intros Hblank. split.
    - intros Hnil.
      assert (JsString.truthy (JsString.trim (newMessage st)) = false) as Hf
        by by rewrite Hnil.
      apply trim_falsy_iff_blank in Hf. congruence.
    - apply trim_idempotent. }
  split.
  - intros m Hm. unfold handleSendMessage in Hm.
    assert (Hnone : ∀ x, x ∉ emitted_by st st).
    { intros x. unfold emitted_by. destruct (socket st); simpl;
        [rewrite drop_all|]; apply not_elem_of_nil. }
    destruct (user st) as [u|] eqn:Hu; [|by apply Hnone in Hm].
    destruct (JsString.truthy (JsString.trim (newMessage st))) eqn:Htruthy;
      simpl in Hm; [|by apply Hnone in Hm].
    assert (JsString.blank (newMessage st) = false) as Hblank.
    { destruct (JsString.blank (newMessage st)) eqn:E; [|done].
      apply trim_falsy_iff_blank in E. congruence. }
    destruct (supabase_insert _ _ _ _) as [db1|]; simpl in Hm;
      [|by apply Hnone in Hm].
    unfold emitted_by in Hm. simpl in Hm.
    destruct (socket st) as [sock|]; simpl in Hm; [|by apply elem_of_nil in Hm].
    destruct (connected sock); simpl in Hm.
    + rewrite drop_app_length in Hm. apply list_elem_of_singleton in Hm as ->.
      simpl. destruct (Htrim Hblank). done.
    + rewrite drop_all in Hm. by apply elem_of_nil in Hm.
  - intros r Hr. apply handleSendMessage_rows in Hr as [Hr|(u & Hu & Hblank & ->)];
      [by left|right].
    simpl. destruct (Htrim Hblank). done.
Qed.

End body_laws.

(** ** [renderMessageWithLinks] *)

Section links_facts.
Import Links.
Implicit Types (s t u : JsString.t).

Lemma non_space_run_app s t : non_space_run s ≤ non_space_run (s ++ t).
Proof.
  induction s as [|c s IH]; simpl; [lia|].
  destruct (JsString.is_white_space c); lia.
Qed.

Lemma non_space_run_le s : non_space_run s ≤ length s.
Proof.
  induction s as [|c s IH]; simpl; [lia|].
  destruct (JsString.is_white_space c); lia.
Qed.

Lemma non_space_run_take s n :
  n ≤ non_space_run s → non_space_run (take n s) = n.
Proof.
  revert n. induction s as [|c s IH]; intros n; simpl.
  - intros Hn. by replace n with 0 by lia.
  - destruct (JsString.is_white_space c) eqn:E.
    + intros Hn. by replace n with 0 by lia.
    + destruct n as [|n]; [done|]. intros Hn. simpl. rewrite E.
      f_equal. apply IH. lia.
Qed.

Lemma non_space_run_all s :
  non_space_run s = length s → Forall (λ c, JsString.is_white_space c = false) s.
Proof.
  induction s as [|c s IH]; simpl; [by constructor|].
  destruct (JsString.is_white_space c) eqn:E; [done|].
  intros [= Hs]. constructor; auto.
Qed.

Lemma starts_with_length p s : starts_with p s = true → length p ≤ length s.
Proof.
  unfold starts_with. intros Heq%bool_decide_eq_true_1.
  apply (f_equal length) in Heq. rewrite length_take in Heq. lia.
Qed.

Lemma starts_with_app p s t : starts_with p s = true → starts_with p (s ++ t) = true.
Proof.
  intros Hp. pose proof (starts_with_length _ _ Hp) as Hlen.
  unfold starts_with in *. apply bool_decide_eq_true_1 in Hp.
  apply bool_decide_eq_true_2. by rewrite take_app_le.
Qed.

Lemma starts_with_take p s n :
  length p ≤ n → starts_with p (take n s) = starts_with p s.
Proof.
  intros Hle. unfold starts_with. rewrite take_take.
  by replace (length p `min` n) with (length p) by lia.
Qed.

Lemma http_not_https s : starts_with http s = true → starts_with https s = false.
Proof.
  unfold starts_with. intros H1%bool_decide_eq_true_1.
  apply bool_decide_eq_false_2. intros H2.
  apply (f_equal (take (length http))) in H2. rewrite take_take in H2.
  change (length http `min` length https) with (length http) in H2.
  rewrite H1 in H2. discriminate H2.
Qed.

Lemma scheme_Some s k :
  scheme s = Some k →
  k ≤ length s ∧ 7 ≤ k ≤ 8
  ∧ (starts_with http s = true ∨ starts_with https s = true).
Proof.
  unfold scheme. destruct (starts_with https s) eqn:E1.
  - intros [= <-]. apply starts_with_length in E1 as Hlen. simpl in *.
    split_and!; [done | lia | lia | by right].
  - destruct (starts_with http s) eqn:E2; [|done].
    intros [= <-]. apply starts_with_length in E2 as Hlen. simpl in *.
    split_and!; [done | lia | lia | by left].
Qed.

Lemma scheme_app s t k : scheme s = Some k → scheme (s ++ t) = Some k.
Proof.
  unfold scheme. destruct (starts_with https s) eqn:E1.
  - intros [= <-]. by rewrite starts_with_app.
  - destruct (starts_with http s) eqn:E2; [|done]. intros [= <-].
    assert (starts_with http (s ++ t) = true) as H by by apply starts_with_app.
    by rewrite (http_not_https _ H), H.
Qed.

Lemma scheme_take s k n : scheme s = Some k → k ≤ n → scheme (take n s) = Some k.
Proof.
  unfold scheme. destruct (starts_with https s) eqn:E1.
  - intros [= <-] Hle. by rewrite starts_with_take, E1.
  - destruct (starts_with http s) eqn:E2; [|done]. intros [= <-] Hle.
    assert (starts_with http (take n s) = true) as H
      by by rewrite starts_with_take.
    by rewrite (http_not_https _ H), H.
Qed.

Lemma match_at_Some s len :
  match_at s = Some len →
  ∃ k n, scheme s = Some k ∧ non_space_run (drop k s) = S n ∧ len = k + S n
         ∧ len ≤ length s.
Proof.
  unfold match_at. destruct (scheme s) as [k|] eqn:Hk; [|done].
  destruct (non_space_run (drop k s)) as [|n] eqn:Hn; [done|].
  intros [= <-]. exists k, n. split_and!; try done.
  pose proof (non_space_run_le (drop k s)) as Hle.
  rewrite length_drop in Hle. lia.
Qed.

Lemma match_at_app s t len :
  match_at s = Some len → ∃ len', match_at (s ++ t) = Some len'.
Proof.
  intros (k & n & Hk & Hn & -> & Hlen)%match_at_Some.
  unfold match_at. rewrite (scheme_app _ _ _ Hk).
  apply scheme_Some in Hk as (Hkle & _).
  rewrite drop_app_le by done.
  pose proof (non_space_run_app (drop k s) t) as Hmono.
  destruct (non_space_run (drop k s ++ t)) as [|n']; [lia|]. by eexists.
Qed.

Lemma match_at_None_prefix s t : match_at (s ++ t) = None → match_at s = None.
Proof.
  intros Hnone. destruct (match_at s) as [len|] eqn:E; [|done].
  destruct (match_at_app s t len E) as [len' Hsome]. congruence.
Qed.

Lemma match_at_take s len :
  match_at s = Some len →
  match_at (take len s) = Some len ∧ length (take len s) = len.
Proof.
  intros (k & n & Hk & Hn & -> & Hlen)%match_at_Some.
  split; [|by apply length_take_le].
  unfold match_at. rewrite (scheme_take _ _ _ Hk) by lia.
  rewrite <-take_drop_commute, non_space_run_take by lia. done.
Qed.

Lemma match_at_nil : match_at [] = None.
Proof. reflexivity. Qed.

Lemma search_None s : search s = None ↔ ∀ j, match_at (drop j s) = None.
Proof.
  induction s as [|c s IH].
  - simpl. split; [|done]. intros _ j. by rewrite drop_nil.
  - cbn [search]. split.
    + destruct (match_at (c :: s)) eqn:E; [done|].
      intros Hs. destruct (search s) eqn:Es; [done|].
      intros [|j]; [done|]. simpl. by apply IH.
    + intros Hall. pose proof (Hall 0) as H0. simpl in H0. rewrite H0.
      assert (search s = None) as -> by (apply IH; intros j; apply (Hall (S j))).
      done.
Qed.

Lemma search_drop s j : search s = None → search (drop j s) = None.
Proof.
  rewrite !search_None. intros Hall i. rewrite drop_drop. apply Hall.
Qed.

(** A part in which the pattern matches nowhere fails [test] whatever
    [lastIndex] is, and resets it. *)
Lemma test_plain lastIndex t : search t = None → test lastIndex t = (false, 0).
Proof.
  intros Ht. unfold test, exec. case_bool_decide; [|done].
  by rewrite search_drop.
Qed.

(** A part that is one whole match passes [test] from [lastIndex] 0 and
    leaves [lastIndex] at its end. *)
Lemma test_url u : match_at u = Some (length u) → test 0 u = (true, length u).
Proof.
  intros Hu. unfold test, exec. rewrite bool_decide_eq_true_2 by lia.
  rewrite drop_0. destruct u as [|c u]; [done|].
  cbn [search]. by rewrite Hu.
Qed.

(** The parts of [split]: plain text and matches in turn, ending with
    plain text, and together they are the text. *)
Lemma split_go_parts fuel cur s :
  length s < fuel →
  (∀ j, j < length cur → match_at (drop j (reverse cur ++ s)) = None) →
  ∃ pairs last,
    split_go fuel cur s = (pairs ≫= λ p, [p.1; p.2]) ++ [last]
    ∧ Forall (λ p, search p.1 = None ∧ match_at p.2 = Some (length p.2)) pairs
    ∧ search last = None
    ∧ mjoin (split_go fuel cur s) = reverse cur ++ s.
Proof.
  revert cur s. induction fuel as [|fuel IH]; intros cur s Hfuel Hcur; [lia|].
  assert (Hplain : ∀ t, (∀ j, j < length cur →
                           match_at (drop j (reverse cur ++ t)) = None) →
                        search (reverse cur) = None).
  { intros t Ht. apply search_None. intros j.
    destruct (decide (j < length cur)) as [Hj|Hj].
    - specialize (Ht j Hj).
      rewrite drop_app_le in Ht by (rewrite length_reverse; lia).
      by eapply match_at_None_prefix.
    - rewrite drop_ge by (rewrite length_reverse; lia). done. }
  destruct s as [|c s]; cbn [split_go].
  - exists [], (reverse cur). simpl. rewrite !app_nil_r.
    split_and!; [done | done | by apply (Hplain []) | done].
  - destruct (match_at (c :: s)) as [len|] eqn:Hm.
    + apply match_at_take in Hm as Htake. destruct Htake as [Hurl Hlen].
      apply match_at_Some in Hm as (k & n & _ & _ & -> & Hle).
      destruct (IH [] (drop (k + S n) (c :: s))) as (pairs & last & Heq & Hp & Hl & Hc).
      { rewrite length_drop. simpl in *. lia. }
      { simpl. lia. }
      exists ((reverse cur, take (k + S n) (c :: s)) :: pairs), last.
      split_and!.
      * rewrite Heq. done.
      * constructor; [|done]. simpl. split; [by apply (Hplain (c :: s))|].
        by rewrite Hlen.
      * done.
      * simpl. rewrite Hc. simpl. by rewrite take_drop.
    + destruct (IH (c :: cur) s) as (pairs & last & Heq & Hp & Hl & Hc).
      { simpl in *. lia. }
      { intros j Hj. rewrite reverse_cons, <-app_assoc. simpl.
        destruct (decide (j < length cur)) as [Hj'|Hj']; [by apply Hcur|].
        replace j with (length (reverse cur))
          by (rewrite length_reverse; simpl in Hj; lia).
        by rewrite drop_app_length. }
      exists pairs, last. split_and!; [done | done | done |].
      rewrite Hc, reverse_cons, <-app_assoc. done.
Qed.

Lemma split_parts text :
  ∃ pairs last,
    split text = (pairs ≫= λ p, [p.1; p.2]) ++ [last]
    ∧ Forall (λ p, search p.1 = None ∧ match_at p.2 = Some (length p.2)) pairs
    ∧ search last = None
    ∧ mjoin (split text) = text.
Proof.
  unfold split. apply (split_go_parts (S (length text)) [] text); [lia|].
  simpl. lia.
Qed.

(** More fuel than the length of the text changes nothing. *)
Lemma split_go_fuel fuel fuel' cur s :
  length s < fuel → length s < fuel' → split_go fuel cur s = split_go fuel' cur s.
Proof.
  revert fuel' cur s. induction fuel as [|fuel IH]; intros fuel' cur s H1 H2; [lia|].
  destruct fuel' as [|fuel']; [lia|].
  destruct s as [|c s]; cbn [split_go]; [done|].
  destruct (match_at (c :: s)) as [len|] eqn:Hm.
  - apply match_at_Some in Hm as (k & n & _ & _ & -> & Hle).
    do 2 f_equal. apply IH; rewrite length_drop; simpl in *; lia.
  - apply IH; simpl in *; lia.
Qed.

Lemma map_parts_children lastIndex index parts :
  children_of <$> map_parts lastIndex index parts = parts.
Proof.
  revert lastIndex index. induction parts as [|part parts IH]; intros li i; [done|].
  cbn [map_parts]. destruct (test li part) as [[] li']; simpl; by rewrite IH.
Qed.

(** X14. The elements [renderMessageWithLinks] returns carry, in order,
    exactly the text of the message: nothing is lost, repeated or
    reordered. *)
Theorem rendered_children_spell_the_message text :
  mjoin (children_of <$> renderMessageWithLinks text) = text.
Proof.
  unfold renderMessageWithLinks. rewrite map_parts_children.
  by destruct (split_parts text) as (_ & _ & _ & _ & _ & ->).
Qed.

Lemma map_parts_pairs lastIndex index pairs last :
  Forall (λ p, search p.1 = None ∧ match_at p.2 = Some (length p.2)) pairs →
  search last = None →
  map_parts lastIndex index ((pairs ≫= λ p, [p.1; p.2]) ++ [last])
  = mjoin (imap (λ j p, [span (index + 2 * j) p.1;
                          a (index + 2 * j + 1) p.2 p.2]) pairs)
    ++ [span (index + 2 * length pairs) last].
Proof.
  intros Hpairs Hlast. revert lastIndex index.
  induction Hpairs as [|[t u] pairs [Ht Hu] _ IH]; intros li i.
  - simpl. rewrite (test_plain _ _ Hlast). by rewrite Nat.add_0_r.
  - simpl in Ht, Hu. cbn [mbind list_bind app fst snd map_parts].
    simpl. rewrite (test_plain _ _ Ht), (test_url _ Hu), IH.
    rewrite !Nat.add_0_r. replace (i + 1) with (S i) by lia.
    do 2 f_equal. f_equal.
    + f_equal. apply imap_ext. intros j p _. unfold compose.
      repeat (f_equal; try lia).
    + repeat (f_equal; try lia).
Qed.

(** X15. [renderMessageWithLinks] cuts the message into plain text and
    URLs in turn, starting and ending with plain text (possibly empty),
    and renders every plain piece as a [span] and every URL as a link to
    itself, with consecutive keys.  A plain piece contains no match of
    the pattern; a URL piece is one whole match.  The [lastIndex] the
    pattern keeps between the calls of [test] never makes it take a URL
    for plain text or plain text for a URL. *)
Theorem links_are_exactly_the_urls text :
  ∃ pairs last,
    text = mjoin ((λ p, p.1 ++ p.2) <$> pairs) ++ last
    ∧ Forall (λ p, search p.1 = None ∧ match_at p.2 = Some (length p.2)) pairs
    ∧ search last = None
    ∧ renderMessageWithLinks text
      = mjoin (imap (λ j p, [span (2 * j) p.1; a (2 * j + 1) p.2 p.2]) pairs)
        ++ [span (2 * length pairs) last].
Proof.
  destruct (split_parts text) as (pairs & last & Heq & Hpairs & Hlast & Hconcat).
  exists pairs, last. split_and!; [| done | done |].
  - transitivity (mjoin (split text)); [done|].
    rewrite Heq. unfold JsString.t in *. rewrite join_app. simpl.
    rewrite app_nil_r. f_equal.
    clear. induction pairs as [|[t u] pairs IH]; [done|].
    rewrite bind_cons, join_app, fmap_cons, IH. simpl.
    by rewrite app_nil_r, <-app_assoc.
  - unfold renderMessageWithLinks. rewrite Heq.
    by rewrite (map_parts_pairs 0 0 pairs last Hpairs Hlast).
Qed.


(** X16. A message in which the pattern matches nowhere (in particular
    the empty message) is rendered as a single [span] holding the whole
    message. *)
Theorem message_without_url_is_one_span text :
  search text = None → renderMessageWithLinks text = [span 0 text].
Proof.
  intros Hplain.
  assert (Hgo : ∀ fuel cur s,
            length s < fuel → (∀ j, match_at (drop j s) = None) →
            split_go fuel cur s = [reverse cur ++ s]).
  { induction fuel as [|fuel IH]; intros cur s Hfuel Hs; [lia|].
    destruct s as [|c s]; cbn [split_go]; [by rewrite app_nil_r|].
    pose proof (Hs 0) as H0. simpl in H0. rewrite H0. rewrite IH.
    - by rewrite reverse_cons, <-app_assoc.
    - simpl in Hfuel. lia.
    - intros j. apply (Hs (S j)). }
  unfold renderMessageWithLinks, split.
  rewrite Hgo by (lia || by apply search_None). simpl.
  by rewrite (test_plain _ _ Hplain).
Qed.

Lemma message_without_url_witness :
  search [104; 105; 32; 116; 104; 101; 114; 101]%N = None
  ∧ renderMessageWithLinks [104; 105; 32; 116; 104; 101; 114; 101]%N
    = [span 0 [104; 105; 32; 116; 104; 101; 114; 101]%N].
Proof.
  split; [reflexivity|].
  apply (message_without_url_is_one_span [104; 105; 32; 116; 104; 101; 114; 101]%N).
  reflexivity.
Defined.

(** X17. Every link [renderMessageWithLinks] produces points to a URL:
    its [href], which is also its text, is [http://] or [https://]
    followed by at least one more code unit, and contains no white
    space. *)
Theorem every_link_is_a_url text key href children :
  a key href children ∈ renderMessageWithLinks text →
  children = href
  ∧ (∃ rest, rest ≠ [] ∧ (href = http ++ rest ∨ href = https ++ rest))
  ∧ Forall (λ c, JsString.is_white_space c = false) href.
Proof.
  destruct (split_parts text) as (pairs & last & Heq & Hpairs & Hlast & _).
  unfold renderMessageWithLinks.
  rewrite Heq, (map_parts_pairs 0 0 pairs last Hpairs Hlast).
  intros [Hin|Hin%list_elem_of_singleton]%elem_of_app; [|done].
  apply list_elem_of_join in Hin as (l & Hin & Hl).
  apply list_elem_of_lookup in Hl as [j Hl].
  apply list_lookup_imap_Some in Hl as ([t u] & Hp & ->).
  simpl in Hin. apply elem_of_cons in Hin as [|Hin]; [done|].
  apply list_elem_of_singleton in Hin as [= -> -> ->].
  split; [done|].
  assert (match_at u = Some (length u)) as Hu.
  { eapply Forall_lookup_1 in Hpairs as [_ Hu]; [|exact Hp]. done. }
  apply match_at_Some in Hu as (k & n & Hk & Hn & Hlen & _).
  apply scheme_Some in Hk as Hk'. destruct Hk' as (Hkle & Hk78 & Hprefix).
  assert (drop k u ≠ []) as Hrest.
  { intros Hnil. apply (f_equal length) in Hnil.
    rewrite length_drop in Hnil. simpl in Hnil. lia. }
  assert ((k = 7 ∧ take k u = http) ∨ (k = 8 ∧ take k u = https)) as Hscheme.
  { destruct Hprefix as [Hp'|Hp'].
    - left. assert (k = 7) as ->.
      { unfold scheme in Hk. rewrite (http_not_https _ Hp'), Hp' in Hk.
        by injection Hk. }
      split; [done|]. unfold starts_with in Hp'.
      by apply bool_decide_eq_true_1 in Hp'.
    - right. assert (k = 8) as ->.
      { unfold scheme in Hk. rewrite Hp' in Hk. by injection Hk. }
      split; [done|]. unfold starts_with in Hp'.
      by apply bool_decide_eq_true_1 in Hp'. }
  split.
  - exists (drop k u). split; [done|].
    destruct Hscheme as [[_ Htake]|[_ Htake]]; [left | right];
      by rewrite <-Htake, take_drop.
  - rewrite <-(take_drop k u). apply Forall_app. split.
    + destruct Hscheme as [[_ ->]|[_ ->]]; by repeat constructor.
    + apply non_space_run_all. rewrite length_drop. lia.
Qed.

Lemma every_link_witness :
  a 1 (http ++ [120]%N) (http ++ [120]%N)
    ∈ renderMessageWithLinks ([97; 32]%N ++ http ++ [120]%N)
  ∧ Forall (λ c, JsString.is_white_space c = false) (http ++ [120]%N).
Proof.
  assert (a 1 (http ++ [120]%N) (http ++ [120]%N)
            ∈ renderMessageWithLinks ([97; 32]%N ++ http ++ [120]%N)) as Hin.
  { vm_compute. right. left. }
  split; [exact Hin|].
  apply (every_link_is_a_url _ _ _ _ Hin).
Defined.

End links_facts.

(** ** The approval check and its cache *)

Section approval_laws.
Import Auth.
Variable toLowerCase : string → string.


Lemma verifyApprovedEmail_cases table cache email :
  (ok (verifyApprovedEmail toLowerCase table cache email).1.1 = true →
     JsMap.get (toLowerCase email) cache = Some true
     ∨ (JsMap.get (toLowerCase email) cache = None
        ∧ ∃ e, table (toLowerCase email) = lookup_row e ∧ e ≠ ""))
  ∧ (ok (verifyApprovedEmail toLowerCase table cache email).1.1 = true
     ↔ error (verifyApprovedEmail toLowerCase table cache email).1.1 = None)
  ∧ (toLowerCase email = "" ∨ table (toLowerCase email) = lookup_error →
     (verifyApprovedEmail toLowerCase table cache email).1.2 = cache)
  ∧ (∀ c, c ∈ (verifyApprovedEmail toLowerCase table cache email).2 →
          c = select_approved_email (toLowerCase email)
          ∧ JsMap.get (toLowerCase email) cache = None).
Proof.
  unfold verifyApprovedEmail. case_bool_decide as Hempty; simpl.
  { split_and!; [done | done | done |]. by intros c ?%elem_of_nil. }
  destruct (JsMap.get (toLowerCase email) cache) as [[]|] eqn:Hget; simpl.
  - split_and!; [by left | done | done |]. by intros c ?%elem_of_nil.
  - split_and!; [done | done | done |]. by intros c ?%elem_of_nil.
  - destruct (table (toLowerCase email)) as [|e|] eqn:Ht; simpl.
    + split_and!; [done | done | done |].
      by intros c ->%list_elem_of_singleton.
    + split_and!.
      * intros He%bool_decide_eq_true_1. right. split; [done|]. by exists e.
      * by case_bool_decide.
      * by intros [?|?].
      * by intros c ->%list_elem_of_singleton.
    + split_and!; [done | done | by intros [?|?] |].
      by intros c ->%list_elem_of_singleton.
Qed.

(** X19. [verifyApprovedEmail] approves only on evidence: its verdict is
    positive only if the cache already says so or the table returns a row
    for the lower-cased email; a positive verdict carries no error and a
    negative one always carries one; an empty email or a failed request
    leaves the cache as it was, so that the next check asks again; and
    the only request it ever makes is the look-up of the lower-cased
    email, when the cache has no entry for it. *)
Theorem approval_needs_evidence table cache email :
  (ok (verifyApprovedEmail toLowerCase table cache email).1.1 = true →
     JsMap.get (toLowerCase email) cache = Some true
     ∨ (JsMap.get (toLowerCase email) cache = None
        ∧ ∃ e, table (toLowerCase email) = lookup_row e ∧ e ≠ ""))
  ∧ (ok (verifyApprovedEmail toLowerCase table cache email).1.1 = true
     ↔ error (verifyApprovedEmail toLowerCase table cache email).1.1 = None)
  ∧ (toLowerCase email = "" ∨ table (toLowerCase email) = lookup_error →
     (verifyApprovedEmail toLowerCase table cache email).1.2 = cache)
  ∧ (∀ c, c ∈ (verifyApprovedEmail toLowerCase table cache email).2 →
          c = select_approved_email (toLowerCase email)
          ∧ JsMap.get (toLowerCase email) cache = None).
Proof. apply verifyApprovedEmail_cases. Qed.

(** X20. [signIn] sends the password to the auth service only for a
    non-empty email and password and an approved email, and then exactly
    as typed; it reports success only when that request returned a
    user. *)
Theorem sign_in_is_gated_by_approval table response cache email password :
  (∀ e p, auth_signInWithPassword e p
            ∈ (signIn toLowerCase table response cache email password).2 →
          e = email ∧ p = password ∧ email ≠ "" ∧ password ≠ ""
          ∧ ok (verifyApprovedEmail toLowerCase table cache email).1.1 = true)
  ∧ ((signIn toLowerCase table response cache email password).1.1 = None
     ↔ email ≠ "" ∧ password ≠ ""
       ∧ ok (verifyApprovedEmail toLowerCase table cache email).1.1 = true
       ∧ response = sign_in_data true).
Proof.
  pose proof (verifyApprovedEmail_cases table cache email) as (_ & Herr & _ & Hcalls).
  unfold signIn.
  destruct (decide (email = "")) as [->|He].
  { simpl. split; [by intros e p ?%elem_of_nil|]. split; [done | by intros [? _]]. }
  destruct (decide (password = "")) as [->|Hp].
  { rewrite bool_decide_eq_false_2 by done. simpl.
    split; [by intros e p ?%elem_of_nil|]. split; [done | by intros (_ & ? & _)]. }
  rewrite !bool_decide_eq_false_2 by done. simpl.
  destruct (verifyApprovedEmail toLowerCase table cache email)
    as [[[approved err] cache1] calls] eqn:Hv.
  simpl in *. destruct approved; simpl.
  - split.
    + intros e p Hin.
      assert (auth_signInWithPassword e p
                ∈ calls ++ [auth_signInWithPassword email password]) as Hin'
        by by destruct response as [[]| |].
      apply elem_of_app in Hin' as [Hin'|Hin'%list_elem_of_singleton].
      * by apply Hcalls in Hin' as [? _].
      * by injection Hin' as -> ->.
    + destruct response as [[]| |]; simpl; split; try done;
        by intros (_ & _ & _ & ?).
  - split.
    + intros e p Hin. by apply Hcalls in Hin as [? _].
    + split; [|by intros (_ & _ & ? & _)].
      intros ->. assert (false = true) by by apply Herr. done.
Qed.

End approval_laws.


(** ** Sign up *)

Section sign_up_laws.
Import Auth.
Variable toLowerCase : string → string.

Lemma poll_user_id_calls env n i :
  length (filter is_getUser (poll_user_id env n i).2) ≤ n
  ∧ Forall (λ c, is_getUser c = true ∨ ∃ ms, c = sleep ms) (poll_user_id env n i).2.
Proof.
  revert i. induction n as [|n IH]; intros i; simpl.
  - split; [done | constructor].
  - destruct (getUser_response env i) as [id|]; simpl.
    + destruct (JsText.present id); simpl.
      * split; [rewrite ?filter_cons; simpl; lia|].
        repeat constructor.
      * destruct (IH (S i)) as [Hlen Hall].
        destruct (poll_user_id env n (S i)) as [r calls]. simpl in *.
        rewrite !filter_cons. simpl.
        split; [lia|]. constructor; [by left|]. constructor; [right; by eexists|done].
    + split; [rewrite ?filter_cons; simpl; lia|].
      repeat constructor.
Qed.

Lemma upsert_profile_calls env userId email name n attempt :
  length (filter is_upsert (upsert_profile env userId email name n attempt).2) ≤ n
  ∧ Forall (λ c, is_upsert c = true ∨ ∃ ms, c = sleep ms)
           (upsert_profile env userId email name n attempt).2.
Proof.
  revert attempt. induction n as [|n IH]; intros attempt; simpl.
  - split; [done | constructor].
  - destruct (upsert_response env attempt) as [[|code message]|]; simpl.
    + split; [rewrite ?filter_cons; simpl; lia|].
      repeat constructor.
    + destruct (isFkViolation code message); simpl.
      * destruct (IH (S attempt)) as [Hlen Hall].
        destruct (upsert_profile env userId email name n (S attempt)) as [r calls].
        simpl in *. rewrite ?filter_cons. simpl.
        split; [lia|]. constructor; [by left|]. constructor; [right; by eexists|done].
      * split; [rewrite ?filter_cons; simpl; lia|].
        repeat constructor.
    + split; [rewrite ?filter_cons; simpl; lia|].
      repeat constructor.
Qed.

Lemma filter_only {A} (P Q : A → Prop) `{∀ x, Decision (P x)} (l : list A) :
  Forall (λ x, Q x) l → (∀ x, Q x → ¬ P x) → filter P l = [].
Proof.
  intros Hall Hno. apply filter_none. intros x Hx.
  apply Hno. by eapply Forall_forall in Hall.
Qed.

Local Ltac cnt := first [lia | eassumption | simpl in *; lia].

Lemma signUp_try_calls env email password name :
  length (filter is_upsert (signUp_try env email password name).2) ≤ 5
  ∧ length (filter is_getUser (signUp_try env email password name).2) ≤ 5
  ∧ length (filter is_auth_signUp (signUp_try env email password name).2) = 1
  ∧ ((signUp_try env email password name).1 = returned None →
     ∃ id, signUp_response env = resolves (inr id)).
Proof.
  unfold signUp_try.
  destruct (signUp_response env) as [[message|id]|].
  { simpl. split_and!; [cnt | cnt | done | first [done | intros _; by eexists]]. }
  2:{ simpl. split_and!; [cnt | cnt | done | first [done | intros _; by eexists]]. }
  assert (Hpoll : ∃ polled calls1,
    (if JsText.present id then (goes_on id, []) else poll_user_id env 5 0)
    = (polled, calls1)
    ∧ length (filter is_getUser calls1) ≤ 5
    ∧ filter is_upsert calls1 = []
    ∧ filter is_auth_signUp calls1 = []).
  { destruct (JsText.present id).
    - eexists _, _. split; [reflexivity|]. simpl. split_and!; [lia|done|done].
    - destruct (poll_user_id_calls env 5 0) as [Hlen Hall].
      destruct (poll_user_id env 5 0) as [polled calls1]. simpl in *.
      eexists _, _. split; [reflexivity|]. split_and!; [done| |].
      + eapply filter_only; [exact Hall|]. intros c [Hc|[ms ->]]; [destruct c; simpl in *; try discriminate; tauto | simpl; tauto].
      + eapply filter_only; [exact Hall|]. intros c [Hc|[ms ->]]; [destruct c; simpl in *; try discriminate; tauto | simpl; tauto]. }
  destruct Hpoll as (polled & calls1 & -> & Hg1 & Hu1 & Hs1).
  assert (Hsome : ∃ id0, @resolves (string + option string) (inr id)
                         = resolves (inr id0)) by by eexists.
  destruct polled as [e|[userId|]|]; cbv beta iota.
  - simpl. rewrite ?filter_cons. simpl. rewrite ?Hu1, ?Hs1. simpl.
    split_and!; [cnt | cnt | done | first [done | intros _; by eexists]].
  - destruct (upsert_profile_calls env userId email name maxRetries 0) as [Hlen Hall].
    destruct (upsert_profile env userId email name maxRetries 0) as [upserted calls2].
    simpl in *. unfold maxRetries in Hlen.
    assert (filter is_getUser calls2 = []) as Hg2.
    { eapply filter_only; [exact Hall|]. intros c [Hc|[ms ->]]; [destruct c; simpl in *; try discriminate; tauto | simpl; tauto]. }
    assert (filter is_auth_signUp calls2 = []) as Hs2.
    { eapply filter_only; [exact Hall|]. intros c [Hc|[ms ->]]; [destruct c; simpl in *; try discriminate; tauto | simpl; tauto]. }
    destruct upserted as [e| |]; simpl.
    + rewrite ?filter_cons, ?filter_app. simpl.
      rewrite ?filter_app, ?Hu1, ?Hs1, ?Hg2, ?Hs2, ?app_nil_r, ?length_app. simpl.
      split_and!; [cnt | cnt | done | first [done | intros _; by eexists]].
    + destruct (existing_profile env) as [found|]; simpl;
        rewrite ?filter_cons, ?filter_app; simpl;
        rewrite ?filter_app, ?Hu1, ?Hs1, ?Hg2, ?Hs2, ?app_nil_r, ?length_app; simpl;
        (split_and!; [cnt | cnt | done | first [done | intros _; by eexists]]).
    + rewrite ?filter_cons, ?filter_app. simpl.
      rewrite ?filter_app, ?Hu1, ?Hs1, ?Hg2, ?Hs2, ?app_nil_r, ?length_app. simpl.
      split_and!; [cnt | cnt | done | first [done | intros _; by eexists]].
  - simpl. rewrite ?filter_cons. simpl. rewrite ?Hu1, ?Hs1. simpl.
    split_and!; [cnt | cnt | done | first [done | intros _; by eexists]].
  - simpl. rewrite ?filter_cons. simpl. rewrite ?Hu1, ?Hs1. simpl.
    split_and!; [cnt | cnt | done | first [done | intros _; by eexists]].
Qed.

(** X21. [signUp] creates an account only for an approved email: when
    the approval check fails, no request goes to the auth service or to
    [users].  Otherwise it calls [auth.signUp] once, polls [getUser] at
    most 5 times and tries the profile upsert at most 5 times.  It
    reports success only if the email was approved and [auth.signUp]
    resolved without an error. *)
Theorem sign_up_is_gated_and_bounded env cache email password name :
  (ok (verifyApprovedEmail toLowerCase (approved_emails env) cache email).1.1 = false →
     signUp toLowerCase env cache email password name
     = ((error (verifyApprovedEmail toLowerCase (approved_emails env) cache email).1.1),
        (verifyApprovedEmail toLowerCase (approved_emails env) cache email).1.2,
        (verifyApprovedEmail toLowerCase (approved_emails env) cache email).2)
     ∧ filter is_auth_signUp (signUp toLowerCase env cache email password name).2 = []
     ∧ filter is_upsert (signUp toLowerCase env cache email password name).2 = [])
  ∧ length (filter is_auth_signUp (signUp toLowerCase env cache email password name).2) ≤ 1
  ∧ length (filter is_getUser (signUp toLowerCase env cache email password name).2) ≤ 5
  ∧ length (filter is_upsert (signUp toLowerCase env cache email password name).2) ≤ 5
  ∧ ((signUp toLowerCase env cache email password name).1.1 = None →
     ok (verifyApprovedEmail toLowerCase (approved_emails env) cache email).1.1 = true
     ∧ ∃ id, signUp_response env = resolves (inr id)).
Proof.
  pose proof (verifyApprovedEmail_cases toLowerCase (approved_emails env) cache email)
    as (_ & Herr & _ & Hcalls).
  assert (Hv : ∀ (P : call → bool), (∀ n, P (select_approved_email n) = false) →
     filter P (verifyApprovedEmail toLowerCase (approved_emails env) cache email).2 = []).
  { intros P HP. apply filter_none. intros c [-> _]%Hcalls H.
    by rewrite HP in H. }
  pose proof (signUp_try_calls env email password name) as (Hu & Hg & Hs & Hok).
  unfold signUp.
  destruct (verifyApprovedEmail toLowerCase (approved_emails env) cache email)
    as [[[approved err] cache1] calls] eqn:Hver.
  simpl in *. destruct approved; simpl.
  - destruct (signUp_try env email password name) as [r calls'] eqn:Htry.
    simpl in *. rewrite !filter_app, !Hv by done. simpl.
    split_and!; [done | lia | lia | lia |].
    intros Hnone. split; [done|]. apply Hok.
    destruct r as [e| |]; simpl in Hnone; [by subst | | done].
    clear -Htry. exfalso. unfold signUp_try in Htry.
    repeat (case_match; simplify_eq; try done).
  - rewrite !Hv by done. simpl.
    split_and!; [done | lia | lia | lia |].
    intros ->. assert (false = true) by by apply Herr. done.
Qed.

End sign_up_laws.

(** ** The auth state *)

Section auth_state_laws.
Import Auth.

Lemma before_at_idemp s : JsText.before_at (JsText.before_at s) = JsText.before_at s.
Proof.
  induction s as [|c s IH]; simpl; [done|].
  destruct (Ascii.eqb c JsText.at_sign) eqn:E; simpl; [done|]. by rewrite E, IH.
Qed.

(** X22. The name shown right after sign-in is never empty and never
    contains ["@"]: it is the part of the email before the first ["@"],
    and ["User"] when that part is empty or the session has no email. *)
Theorem base_user_name_is_never_empty u :
  User.name (baseUser u) ≠ ""
  ∧ JsText.before_at (User.name (baseUser u)) = User.name (baseUser u)
  ∧ (User.name (baseUser u)
     = match su_email u with
       | Some e => if bool_decide (JsText.before_at e = "") then "User"
                   else JsText.before_at e
       | None => "User"
       end)
  ∧ User.id (baseUser u) = su_id u.
Proof.
  unfold baseUser. simpl. destruct (su_email u) as [e|]; simpl.
  - case_bool_decide as E; simpl; [done|].
    split_and!; [done | apply before_at_idemp | done | done].
  - done.
Qed.

(** X23. The spinner never comes back: once [loading] is false, no
    sequence of auth events, profile fetches, sign-outs and timeouts
    makes it true again. *)
Theorem loading_never_returns state ts :
  loading state = false → loading (run_transitions state ts) = false.
Proof.
  unfold run_transitions. revert state.
  induction ts as [|t ts IH]; intros state Hl; [done|].
  simpl. apply IH. destruct t as [m ev s|m p| |m]; simpl.
  - unfold onAuthStateChange. destruct m; simpl; [|done].
    by destruct ev, s.
  - unfold on_profile_fetched. by destruct p, m.
  - done.
  - unfold on_safety_timeout. by destruct m.
Qed.

Lemma loading_never_returns_witness :
  loading (mkAuthState None false None) = false
  ∧ loading (run_transitions (mkAuthState None false None)
               [auth_state_changed true SIGNED_IN
                  (Some (mkSessionUser "u" (Some "ann@x.org") "t"));
                auth_state_changed true other_event None;
                signOut_called]) = false.
Proof.
  split; [reflexivity|].
  apply (loading_never_returns (mkAuthState None false None)). reflexivity.
Defined.

(** X24. A profile fetch that comes back after the user has signed out
    puts a user back into the state: the fetch started at sign-in only
    checks that the provider is mounted, so after [SIGNED_OUT] (or after
    [signOut] cleared the state) its result is still merged. *)
Theorem late_profile_fetch_restores_the_user state session profile :
  user (run_transitions state
          [auth_state_changed true SIGNED_IN (Some session);
           auth_state_changed true SIGNED_OUT None;
           profile_fetched true (Some profile)])
  = Some profile
  ∧ user (run_transitions state
            [auth_state_changed true SIGNED_IN (Some session);
             signOut_called;
             profile_fetched true (Some profile)])
    = Some profile
  ∧ user (run_transitions state
            [auth_state_changed true SIGNED_IN (Some session);
             auth_state_changed true SIGNED_OUT None])
    = None.
Proof. done. Qed.

End auth_state_laws.

(** ** The sign-up form *)

Section signup_form_laws.
Import Signup.

(** X25. [handleSubmit] calls [signUp] exactly for a valid form: the
    name is not blank, the email is not empty, the password has at least
    6 code units and the confirmation equals it.  The call then carries
    the email, password and name as typed.  A form that is not valid
    makes no request and shows an error; and the page moves on to
    [/chat] only after a [signUp] that reported no error. *)
Theorem signup_submits_exactly_the_valid_forms env f :
  ((∃ rest, (handleSubmit env f).2
            = call_signUp (email f) (password f) (name f) :: rest)
   ↔ JsString.blank (name f) = false ∧ email f ≠ []
     ∧ 6 ≤ length (password f) ∧ confirmPassword f = password f)
  ∧ (∀ e p n, call_signUp e p n ∈ (handleSubmit env f).2 →
              e = email f ∧ p = password f ∧ n = name f)
  ∧ ((handleSubmit env f).2 = [] → error (handleSubmit env f).1 ≠ "")
  ∧ (navigate "/chat" ∈ (handleSubmit env f).2 →
     ∃ e, signUp_result env = Auth.resolves e ∧ JsText.present e = false).
Proof.
  assert (Hafter : ∀ g, ∀ e p n, call_signUp e p n ∉ (after_signUp env g).2).
  { intros g e p n. unfold after_signUp.
    repeat case_match; simpl; intros Hin;
      repeat (apply elem_of_cons in Hin as [?|Hin]; [done|]);
      by apply elem_of_nil in Hin. }
  unfold handleSubmit. simpl.
  destruct (JsString.truthy (JsString.trim (name f))) eqn:Hname; simpl.
  2:{ apply trim_falsy_iff_blank in Hname.
      split_and!; [|by intros ??? ?%elem_of_nil | done | by intros ?%elem_of_nil].
      split; [by intros [? ?]|]. intros [? _]. congruence. }
  assert (JsString.blank (name f) = false) as Hblank.
  { destruct (JsString.blank (name f)) eqn:E; [|done].
    apply trim_falsy_iff_blank in E. congruence. }
  destruct (email f) as [|c em] eqn:Hemail; simpl.
  { split_and!; [|by intros ??? ?%elem_of_nil | done | by intros ?%elem_of_nil].
    split; [by intros [? ?]|]. by intros (_ & ? & _). }
  destruct (password f) as [|c' pw] eqn:Hpw; simpl.
  { split_and!; [|by intros ??? ?%elem_of_nil | done | by intros ?%elem_of_nil].
    split; [by intros [? ?]|]. intros (_ & _ & ? & _). simpl in *. lia. }
  case_bool_decide as Hlen; simpl.
  { split_and!; [|by intros ??? ?%elem_of_nil | done | by intros ?%elem_of_nil].
    split; [by intros [? ?]|]. intros (_ & _ & ? & _). simpl in *. lia. }
  destruct (confirmPassword f) as [|c'' cp] eqn:Hcp; simpl.
  { split_and!; [|by intros ??? ?%elem_of_nil | done | by intros ?%elem_of_nil].
    split; [by intros [? ?]|]. by intros (_ & _ & _ & ?). }
  case_bool_decide as Hsame; simpl.
  { split_and!; [|by intros ??? ?%elem_of_nil | done | by intros ?%elem_of_nil].
    split; [by intros [? ?]|]. by intros (_ & _ & _ & ?). }
  assert (Hvalid : JsString.blank (name f) = false ∧ c :: em ≠ []
                   ∧ 6 ≤ length (c' :: pw) ∧ c'' :: cp = c' :: pw).
  { split_and!; [done | done | simpl in *; lia | done]. }
  destruct (signUp_result env) as [signUpError|] eqn:Hres; simpl.
  - destruct (JsText.present signUpError) eqn:Hpresent; simpl.
    + split_and!; [split; [done | by eexists] | | done |].
      * intros e p n [[= -> -> ->]|Hin%elem_of_nil]%elem_of_cons; done.
      * intros [?|Hin%elem_of_nil]%elem_of_cons; done.
    + destruct (after_signUp env _) as [f' actions] eqn:Hact. simpl.
      split_and!; [split; [done | by eexists] | | done |].
      * intros e p n [[= -> -> ->]|Hin]%elem_of_cons; [done|].
        exfalso. eapply Hafter. by rewrite Hact.
      * intros _. by eexists.
  - split_and!; [split; [done | by eexists] | | done |].
    + intros e p n [[= -> -> ->]|Hin%elem_of_nil]%elem_of_cons; done.
    + intros [?|Hin%elem_of_nil]%elem_of_cons; done.
Qed.

End signup_form_laws.

(** ** The count limit for one author *)

Section own_messages.
Import Store Client.

(** X26. When both requests of the clean-up reach the database and the
    session may delete every row among the oldest [length - 50] (for
    instance because it wrote them all), the clean-up leaves exactly the
    50 most recent messages (all of them if there are fewer), and every
    message it removed is at most as recent as every message it kept. *)
Theorem cleanup_keeps_the_50_most_recent_of_own_messages env uid db :
  select_reaches env = true →
  delete_reaches env = true →
  NoDup (Row.id <$> Store.messages db) →
  (∀ m, m ∈ take (length (select_ordered (authenticated uid) db) - max_messages)
                 (select_ordered (authenticated uid) db) →
        can_delete (authenticated uid) m) →
  Store.messages (enforce_max_messages env (authenticated uid) db)
    ≡ₚ most_recent (authenticated uid) max_messages db
  ∧ length (Store.messages (enforce_max_messages env (authenticated uid) db))
    = length (Store.messages db) `min` max_messages
  ∧ (∀ kept gone,
       kept ∈ Store.messages (enforce_max_messages env (authenticated uid) db) →
       gone ∈ Store.messages db →
       gone ∉ Store.messages (enforce_max_messages env (authenticated uid) db) →
       created_le gone kept).
Proof. apply enforce_max_messages_when_deletable. Qed.

Lemma cleanup_of_own_messages_witness :
  select_reaches (env_at 61 100) = true
  ∧ delete_reaches (env_at 61 100) = true
  ∧ NoDup (Row.id <$> Store.messages (alices_table 60))
  ∧ length (Store.messages (enforce_max_messages (env_at 61 100) (authenticated "A")
                                                 (alices_table 60)))
    = 50.
Proof.
  assert (NoDup (Row.id <$> Store.messages (alices_table 60))) as Hnd.
  { apply (bool_decide_unpack _). vm_compute. exact I. }
  split; [reflexivity|]. split; [reflexivity|]. split; [exact Hnd|].
  destruct (cleanup_keeps_the_50_most_recent_of_own_messages
              (env_at 61 100) "A" (alices_table 60) eq_refl eq_refl Hnd)
    as (_ & Hlen & _).
  - apply Forall_forall. apply (bool_decide_unpack _). vm_compute. exact I.
  - exact Hlen.
Defined.

End own_messages.

(** ** The start-up check *)

Section init_auth_laws.
Import Auth InitAuth.

(** X27. [initAuth] puts a user into the state only for a session whose
    email passed the approval check, and then it is the [baseUser] of
    that session; in every other case it leaves the state alone or
    clears the user.  When the check fails for a restored session it
    signs the session out and starts no profile fetch. *)
Theorem init_auth_exposes_only_approved_users toLowerCase env cache state :
  ((initAuth toLowerCase env cache state).1.1 = state
   ∨ user (initAuth toLowerCase env cache state).1.1 = None
   ∨ ∃ u, getSession_response env = resolves (session_data (Some u))
          ∧ ok (verifyApprovedEmail toLowerCase (approved_emails env) cache
                                    (JsText.or_else (su_email u) "")).1.1 = true
          ∧ (initAuth toLowerCase env cache state).1.1
            = mkAuthState (Some (baseUser u)) false None)
  ∧ (∀ u, getSession_response env = resolves (session_data (Some u)) →
          mounted_after_getSession env = true →
          ok (verifyApprovedEmail toLowerCase (approved_emails env) cache
                                  (JsText.or_else (su_email u) "")).1.1 = false →
          auth_signOut ∈ (initAuth toLowerCase env cache state).2
          ∧ ∀ id, fetch_profile id ∉ (initAuth toLowerCase env cache state).2).
Proof.
  unfold initAuth.
  destruct (getSession_response env) as [[|[u|]]|] eqn:Hresp.
  - split; [|done]. destruct (mounted_after_getSession env); [by right; left | by left].
  - destruct (mounted_after_getSession env) eqn:Hm; simpl.
    + destruct (verifyApprovedEmail toLowerCase (approved_emails env) cache
                  (JsText.or_else (su_email u) "")) as [[[approved err] cache1] calls]
        eqn:Hv.
      simpl. destruct approved; simpl.
      * split; [|intros u' [= <-] _ Hok; by rewrite Hv in Hok].
        right. right. exists u. by rewrite Hv.
      * split.
        -- destruct (signOut_response env), (mounted_after_check env);
             (by left) || (by right; left).
        -- intros u' [= <-] _ _.
           assert (∀ c : list request,
             auth_signOut ∈ (auth_getSession :: (approved_email_check <$> calls)) ++ c
             ↔ auth_signOut ∈ c) as Hso.
           { intros c. rewrite elem_of_app, elem_of_cons, list_elem_of_fmap.
             split; [|by right]. intros [[?|(? & ? & _)]|?]; done. }
           assert (∀ id (c : list request),
             fetch_profile id ∈ (auth_getSession :: (approved_email_check <$> calls)) ++ c
             ↔ fetch_profile id ∈ c) as Hfp.
           { intros id c. rewrite elem_of_app, elem_of_cons, list_elem_of_fmap.
             split; [|by right]. intros [[?|(? & ? & _)]|?]; done. }
           destruct (signOut_response env); simpl;
             (split; [apply Hso; by left|]);
             intros id [= ]%Hfp%list_elem_of_singleton.
    + split; [by left|]. by intros ? _ ?.
  - split; [|done]. destruct (mounted_after_getSession env); simpl;
      [by right; left | by left].
  - split; [|done]. destruct (mounted_after_getSession env); [by right; left | by left].
Qed.

End init_auth_laws.

(** ** Profile pictures *)

Section profile_laws.
Import Auth Profile.

Lemma extension_no_dot name : has_dot (extension name) = false.
Proof.
  induction name as [|c name IH]; simpl; [done|].
  destruct (has_dot name) eqn:Hd; [done|].
  destruct (Ascii.eqb c dot) eqn:Hc; [done|]. simpl. by rewrite Hc, Hd.
Qed.

(** X28. The extension [uploadProfilePicture] takes from a file name
    contains no ["."]; a name with a dot is some stem, a dot and the
    extension; and for a name without a dot the extension is the whole
    name. *)
Theorem extension_is_what_follows_the_last_dot name :
  has_dot (extension name) = false
  ∧ (has_dot name = true → ∃ stem, name = stem +:+ "." +:+ extension name)
  ∧ (has_dot name = false → extension name = name).
Proof.
  split; [apply extension_no_dot|]. split.
  - induction name as [|c name IH]; simpl; [done|].
    destruct (has_dot name) eqn:Hd.
    + intros _. destruct (IH eq_refl) as [stem Hstem].
      exists (String c stem). rewrite Hstem at 1. reflexivity.
    + rewrite orb_false_r. intros Hc. rewrite Hc.
      apply Ascii.eqb_eq in Hc as ->. by exists "".
  - induction name as [|c name IH]; simpl; [done|].
    intros [Hc Hd]%orb_false_iff. by rewrite Hd, Hc.
Qed.

(** X29. [uploadProfilePicture] returns either a URL or an error, never
    both and never neither.  It returns a URL only when the upload and
    the update of [users] both succeeded, and then it is the public URL
    of the path [avatars/<user id>-<time>.<extension>]; the update is
    only attempted after a successful upload, and for the user given. *)
Theorem upload_reports_a_url_only_after_both_requests env file userId :
  (url (uploadProfilePicture env file userId).1 = None
   ↔ upload_error (uploadProfilePicture env file userId).1 ≠ None)
  ∧ (∀ u, url (uploadProfilePicture env file userId).1 = Some u →
          u = publicUrl env ("avatars/" +:+ userId +:+ "-" +:+ now env +:+ "."
                             +:+ extension (Signup.file_name file))
          ∧ upload_response env = resolves None
          ∧ update_response env = resolves None)
  ∧ (∀ uid u, update_profile_picture_url uid u
                ∈ (uploadProfilePicture env file userId).2 →
              uid = userId ∧ upload_response env = resolves None).
Proof.
  unfold uploadProfilePicture, filePath.
  destruct (upload_response env) as [[message|]|]; simpl.
  - split_and!; [done | done |].
    intros uid u [[=]|?%elem_of_nil]%elem_of_cons. done.
  - destruct (update_response env) as [[message|]|]; simpl.
    + split_and!; [done | done |].
      intros uid u [[=]|[[= -> ->]|?%elem_of_nil]%elem_of_cons]%elem_of_cons; done.
    + split_and!; [split; [done | by intros []] | by intros u [= <-] |].
      intros uid u [[=]|[[= -> ->]|?%elem_of_nil]%elem_of_cons]%elem_of_cons; done.
    + split_and!; [done | done |].
      intros uid u [[=]|[[= -> ->]|?%elem_of_nil]%elem_of_cons]%elem_of_cons; done.
  - split_and!; [done | done |].
    intros uid u [[=]|?%elem_of_nil]%elem_of_cons. done.
Qed.

Lemma or_else_nonempty x fallback : fallback ≠ "" → JsText.or_else x fallback ≠ "".
Proof.
  intros Hf. unfold JsText.or_else. destruct x as [s|]; [|done].
  by case_bool_decide.
Qed.

Lemma upload_outcome env file userId :
  (upload_response env = resolves None
   ∧ update_response env = resolves None
   ∧ (uploadProfilePicture env file userId).1
     = mkUploadResult (Some (publicUrl env (filePath userId (now env) file))) None)
  ∨ ((upload_response env ≠ resolves None ∨ update_response env ≠ resolves None)
     ∧ url (uploadProfilePicture env file userId).1 = None).
Proof.
  unfold uploadProfilePicture.
  destruct (upload_response env) as [[m|]|]; simpl;
    [right; split; [by left | done] | | right; split; [by left | done]].
  destruct (update_response env) as [[m|]|]; simpl;
    [right; split; [by right | done] | | right; split; [by right | done]].
  by left.
Qed.

(** The picture step of [handleSaveProfile]: it goes on with the public
    URL when the upload has succeeded and the URL is not empty, and
    throws otherwise. *)
Lemma save_try_unfold env u eff e :
  (save_try env u eff e).1
  = match
      match editFile e with
      | Some file =>
          let r := (uploadProfilePicture (upload_env env) file (User.id u)).1 in
          if JsText.present (upload_error r) || negb (JsText.present (url r))
          then inr (JsText.or_else (upload_error r) "Failed to upload profile picture")
          else inl (url r)
      | None => inl (User.profile_picture_url eff)
      end
    with
    | inr message => inr message
    | inl newAvatarUrl =>
        if bool_decide (editName e ≠ User.name eff) then
          match name_update_response env with
          | name_update_rejects message =>
              inr (JsText.or_else message "Failed to update profile")
          | name_update_error message =>
              inr (JsText.or_else (Some message) "Failed to update profile")
          | name_updated =>
              inl (User.mk (User.id eff) (User.email eff) (editName e)
                           newAvatarUrl (User.created_at eff))
          end
        else inl (User.mk (User.id eff) (User.email eff) (editName e)
                          newAvatarUrl (User.created_at eff))
    end.
Proof.
  unfold save_try. destruct (editFile e) as [file|].
  - destruct (uploadProfilePicture (upload_env env) file (User.id u)) as [r requests].
    cbn [fst]. destruct (JsText.present (upload_error r) || negb (JsText.present (url r)));
      [done|].
    case_bool_decide; [|done]. by destruct (name_update_response env).
  - case_bool_decide; [|done]. by destruct (name_update_response env).
Qed.

(** X30. [handleSaveProfile] changes the local profile exactly when
    every request it has to make succeeds (the upload of a chosen
    picture with a usable URL, the update of an edited name): then the
    profile takes the edited name and the new picture, the editor closes
    and no error is shown.  When one of them fails, the profile and the
    editor stay as they were and a non-empty error message is shown.
    Either way the saving flag is off at the end.  With nobody signed in
    it does nothing, and with no new picture and an unchanged name it
    makes no request. *)
Theorem save_profile_changes_the_profile_only_on_success env e :
  match user e with
  | None => handleSaveProfile env e = (e, [])
  | Some u =>
      editSaving (handleSaveProfile env e).1 = false
      ∧ user (handleSaveProfile env e).1 = Some u
      ∧ (save_succeeds env u (default u (profile e)) e →
         ∃ p, profile (handleSaveProfile env e).1 = Some p
              ∧ User.name p = editName e
              ∧ User.id p = User.id (default u (profile e))
              ∧ User.profile_picture_url p
                = match editFile e with
                  | Some file =>
                      Some (publicUrl (upload_env env)
                              (filePath (User.id u) (now (upload_env env)) file))
                  | None => User.profile_picture_url (default u (profile e))
                  end
              ∧ isProfileOpen (handleSaveProfile env e).1 = false
              ∧ editError (handleSaveProfile env e).1 = None)
      ∧ (¬ save_succeeds env u (default u (profile e)) e →
         profile (handleSaveProfile env e).1 = profile e
         ∧ isProfileOpen (handleSaveProfile env e).1 = isProfileOpen e
         ∧ ∃ message, editError (handleSaveProfile env e).1 = Some message
                      ∧ message ≠ "")
      ∧ (editFile e = None → editName e = User.name (default u (profile e)) →
         (handleSaveProfile env e).2 = []
         ∧ editError (handleSaveProfile env e).1 = None)
  end.
Proof.
  unfold handleSaveProfile. destruct (user e) as [u|] eqn:Hu; [|done].
  set (eff := default u (profile e)).
  assert (Hok : save_succeeds env u eff e →
    (save_try env u eff e).1
    = inl (User.mk (User.id eff) (User.email eff) (editName e)
             (match editFile e with
              | Some file =>
                  Some (publicUrl (upload_env env)
                          (filePath (User.id u) (now (upload_env env)) file))
              | None => User.profile_picture_url eff
              end)
             (User.created_at eff))).
  { rewrite save_try_unfold. unfold save_succeeds. intros [Hfile Hname].
    destruct (editFile e) as [file|].
    - destruct Hfile as (Hup & Hupd & Hurl).
      destruct (upload_outcome (upload_env env) file (User.id u))
        as [(_ & _ & ->)|[[?|?] _]]; [|done|done].
      cbn [upload_error url JsText.present orb negb].
      rewrite (bool_decide_eq_true_2 _ Hurl). cbn [negb].
      case_bool_decide as Hn; [by rewrite (Hname Hn) | done].
    - case_bool_decide as Hn; [by rewrite (Hname Hn) | done]. }
  assert (Hfail : ¬ save_succeeds env u eff e →
    ∃ message, (save_try env u eff e).1 = inr message ∧ message ≠ "").
  { rewrite save_try_unfold. unfold save_succeeds. intros Hnot.
    assert (Hname : ∀ avatar : option string,
      (match editFile e with
       | Some file =>
           upload_response (upload_env env) = resolves None
           ∧ update_response (upload_env env) = resolves None
           ∧ publicUrl (upload_env env)
               (filePath (User.id u) (now (upload_env env)) file) ≠ ""
       | None => True
       end) →
      ∃ message,
        (if bool_decide (editName e ≠ User.name eff) then
           match name_update_response env with
           | name_update_rejects message =>
               inr (JsText.or_else message "Failed to update profile")
           | name_update_error message =>
               inr (JsText.or_else (Some message) "Failed to update profile")
           | name_updated =>
               inl (User.mk (User.id eff) (User.email eff) (editName e)
                            avatar (User.created_at eff))
           end
         else inl (User.mk (User.id eff) (User.email eff) (editName e)
                           avatar (User.created_at eff)))
        = inr message ∧ message ≠ "").
    { intros avatar Hfile.
      case_bool_decide as Hn; [|exfalso; apply Hnot; by split].
      destruct (name_update_response env) eqn:Hr.
      - exfalso. apply Hnot. by split.
      - eexists. split; [reflexivity | by apply or_else_nonempty].
      - eexists. split; [reflexivity | by apply or_else_nonempty]. }
    destruct (editFile e) as [file|]; [|by apply Hname].
    destruct (upload_outcome (upload_env env) file (User.id u))
      as [(Hup & Hupd & ->)|[_ Hr]].
    - cbn [upload_error url JsText.present orb negb].
      destruct (decide (publicUrl (upload_env env)
                          (filePath (User.id u) (now (upload_env env)) file) ≠ ""))
        as [Hurl|Hurl].
      + rewrite (bool_decide_eq_true_2 _ Hurl). cbn [negb]. by apply Hname.
      + rewrite (bool_decide_eq_false_2 _ Hurl). cbn [negb].
        eexists. split; [reflexivity | by apply or_else_nonempty].
    - rewrite Hr. cbn [JsText.present negb]. rewrite orb_true_r.
      eexists. split; [reflexivity | by apply or_else_nonempty]. }
  assert (Hnone : editFile e = None → editName e = User.name eff →
                  ∃ q, save_try env u eff e = (inl q, [])).
  { intros Hf Hn. unfold save_try. rewrite Hf.
    rewrite bool_decide_eq_false_2 by (by intros ?). by eexists. }
  split_and!.
  - by destruct (save_try env u eff e) as [[q|m] requests].
  - by destruct (save_try env u eff e) as [[q|m] requests].
  - intros Hq%Hok. destruct (save_try env u eff e) as [[q|m] requests];
      simpl in Hq; [|done]. injection Hq as ->. simpl.
    eexists. split_and!; done.
  - intros [message [Hq Hm]]%Hfail.
    destruct (save_try env u eff e) as [[q|m] requests]; simpl in Hq; [done|].
    injection Hq as ->. simpl. split_and!; [done | done |]. by exists message.
  - intros Hf Hn. by destruct (Hnone Hf Hn) as [q ->].
Qed.

End profile_laws.
